(** * A relay server over WebSockets: echo, broadcast, liveness pings

    Shallow embedding of [websocket-server.js].  The server is a set of
    event handlers that the JavaScript event loop runs to completion, one
    after the other; the embedding is a step function from an event and
    the state of the process to the effects the handlers perform and the
    next state.  Handler bodies are written in a small monad (state,
    effect log, exceptions) so that they read like the JavaScript they
    model.

    The [ws] library and the runtime are the environment: the set
    [wss.clients], the [readyState] of a socket, what [send], [ping] and
    [close] do to a socket, timers, and the order in which events are
    emitted.  Time passes in ticks of one millisecond; the system clock
    read by [new Date()] is a sequence of readings. *)

From Stdlib Require Import List Ascii String NArith Arith Bool Lia Sorted.
From Stdlib Require Import DecimalString.
Import ListNotations.
Local Open Scope string_scope.
Local Open Scope list_scope.

(** ** The [ws] library, as far as the server uses it *)

(** [WebSocket.CONNECTING], [OPEN], [CLOSING], [CLOSED]. *)
Inductive ready_state : Type := CONNECTING | OPEN | CLOSING | CLOSED.

Definition ready_state_eqb (a b : ready_state) : bool :=
  match a, b with
  | CONNECTING, CONNECTING | OPEN, OPEN | CLOSING, CLOSING | CLOSED, CLOSED => true
  | _, _ => false
  end.

(** A socket object is known by its identity; [!==] compares identities. *)
Definition conn : Type := nat.

(** One member of [wss.clients]: the socket, its [readyState], and whether
    the peer's transport still takes frames ([link_up = false]: a write on
    the socket fails, and the failure surfaces later as that socket's
    ['error'] event, not at the call). *)
Record client : Type := mkClient {
  cid : conn;
  readyState : ready_state;
  link_up : bool
}.

(** What became of a frame handed to [send] or [ping]. *)
Inductive delivery : Type := Delivered | Failed.

(** [wss.clients] is a JavaScript [Set]: iteration follows insertion
    order, [add] of a member changes nothing, [delete] of a non-member
    changes nothing, and neither raises. *)
Module Registry.

Definition t : Type := list client.

Definition has (r : t) (c : conn) : bool :=
  existsb (fun x => Nat.eqb (cid x) c) r.

Definition get (r : t) (c : conn) : option client :=
  find (fun x => Nat.eqb (cid x) c) r.

(** [Set.prototype.add] *)
Definition add (x : client) (r : t) : t :=
  if has r (cid x) then r else r ++ [x].

(** [Set.prototype.delete] *)
Definition delete (c : conn) (r : t) : t :=
  filter (fun x => negb (Nat.eqb (cid x) c)) r.

Definition ids (r : t) : list conn := map cid r.

(** Assignment to the [readyState] of one member. *)
Definition set_state (c : conn) (st : ready_state) (r : t) : t :=
  map (fun x => if Nat.eqb (cid x) c
                then mkClient (cid x) st (link_up x) else x) r.

Definition set_link (c : conn) (up : bool) (r : t) : t :=
  map (fun x => if Nat.eqb (cid x) c
                then mkClient (cid x) (readyState x) up else x) r.

(** What the library does with a frame handed to [send] or [ping] of
    socket [c]: it reaches the peer when the socket is [OPEN] and its
    transport works.  On a socket that is [CLOSING] or [CLOSED] the
    frame is dropped; the call raises only on [CONNECTING], a state that
    a socket handed to ['connection'] has already left.  The server
    passes no callback, so it learns nothing of a failure. *)
Definition delivers (r : t) (c : conn) : delivery :=
  match get r c with
  | Some x => if ready_state_eqb (readyState x) OPEN && link_up x
              then Delivered else Failed
  | None => Failed
  end.

End Registry.

(** An instance to run the server on: payloads are kept as text, every
    text but "not-json" parses, and the [k]-th reading of the clock
    returns [k]. *)
Definition sample_parse (data : string) : option string :=
  if String.eqb data "not-json" then None else Some data.

Definition sample_clock (k : nat) : nat := k.

(** ['\nShutting down server...'] *)
Definition shutdown_banner : string :=
  String "010"%char "Shutting down server...".

(** ** The client ([websocket-client.js])

    One socket, one process.  As for the server, the library and the
    runtime are the environment; the handlers are functions from the state
    of the process to their effects and the next state. *)

(** [setInterval(..., 5000)]: the period of the update timer, in ms. *)
Definition MESSAGE_INTERVAL_MS : N := 5000.

(** A number as a template literal prints it. *)
Definition decimal (n : nat) : string := NilEmpty.string_of_uint (Nat.to_uint n).

(** ['\nClosing connection...'] *)
Definition closing_banner : string :=
  String "010"%char "Closing connection...".

Section ClientModel.

Context {json : Type} (JSON_parse : string -> option json).
Context {timestamp : Type} (clock : nat -> timestamp).

(** The two objects the client serialises with [JSON.stringify]; the
    [clientId] is ['nodejs-client-' + Date.now()], kept as the reading of
    the clock it is made of. *)
Inductive client_message : Type :=
| greeting (message : string) (clientId : timestamp)
| update (message : string) (ts : timestamp).

Inductive client_effect : Type :=
| ClientSend (m : client_message)           (* ws.send(JSON.stringify(m)) *)
| ClientLog (line : string)                 (* console.log / console.error *)
| ClientLogValue (line : string) (v : json) (* console.log(line, message) *)
| ClientClose                               (* ws.close() *)
| ClientClearInterval                       (* clearInterval(messageInterval) *)
| ClientExit (code : nat).                  (* process.exit(code) *)

Record client_process : Type := mkClientProcess {
  ws_readyState : ready_state;       (* ws.readyState *)
  messageCount : nat;                (* let messageCount *)
  messageInterval : option N;        (* the live interval: ms to its next firing *)
  clock_reads : nat;                 (* readings of the clock so far *)
  has_exited : bool                  (* process.exit was called *)
}.

(** [new WebSocket('ws://localhost:8080')]: the handshake is under way. *)
Definition client_init : client_process :=
  mkClientProcess CONNECTING 0 None 0 false.

(** [ws.on('open', ...)]: the greeting, then the counter and the
    interval; the handler that clears the interval is attached to
    ['close'] here. *)
Definition client_on_open (s : client_process) : list client_effect * client_process :=
  ([ClientLog "Connected to WebSocket server";
    ClientSend (greeting "Hello from Node.js client" (clock (clock_reads s)))],
   mkClientProcess (ws_readyState s) 0 (Some MESSAGE_INTERVAL_MS)
                   (S (clock_reads s)) (has_exited s)).

(** The callback given to [setInterval]. *)
Definition messageInterval_callback (s : client_process)
  : list client_effect * client_process :=
  if ready_state_eqb (ws_readyState s) OPEN
  then ([ClientSend (update (String.append "Message #" (decimal (S (messageCount s))))
                            (clock (clock_reads s)));
         ClientLog (String.append "Sent message #" (decimal (S (messageCount s))))],
        mkClientProcess (ws_readyState s) (S (messageCount s)) (messageInterval s)
                        (S (clock_reads s)) (has_exited s))
  else ([], s).

(** [ws.on('message', ...)] *)
Definition client_on_message (data : string) (s : client_process)
  : list client_effect * client_process :=
  match JSON_parse data with
  | Some message => ([ClientLogValue "Received from server:" message], s)
  | None => ([ClientLog (String.append "Received (raw): " data)], s)
  end.

(** [ws.on('error', ...)] *)
Definition client_on_error (message : string) (s : client_process)
  : list client_effect * client_process :=
  ([ClientLog (String.append "WebSocket error: " message)], s).

(** The ['close'] handlers in the order they were attached: the one of
    the top level, then, if the socket had opened, the one that clears
    the interval. *)
Definition client_on_close (s : client_process) : list client_effect * client_process :=
  match messageInterval s with
  | Some _ =>
      ([ClientLog "Disconnected from WebSocket server"; ClientClearInterval],
       mkClientProcess (ws_readyState s) (messageCount s) None
                       (clock_reads s) (has_exited s))
  | None => ([ClientLog "Disconnected from WebSocket server"], s)
  end.

(** [ws.close()]: a socket that is [CONNECTING] or [OPEN] becomes
    [CLOSING]; otherwise nothing changes. *)
Definition client_close (s : client_process) : client_process :=
  match ws_readyState s with
  | CONNECTING | OPEN =>
      mkClientProcess CLOSING (messageCount s) (messageInterval s)
                      (clock_reads s) (has_exited s)
  | _ => s
  end.

(** [process.on('SIGINT', ...)] *)
Definition client_on_SIGINT (s : client_process) : list client_effect * client_process :=
  let s1 := client_close s in
  ([ClientLog closing_banner; ClientClose; ClientExit 0],
   mkClientProcess (ws_readyState s1) (messageCount s1) (messageInterval s1)
                   (clock_reads s1) true).

Definition with_readyState (st : ready_state) (s : client_process) : client_process :=
  mkClientProcess st (messageCount s) (messageInterval s) (clock_reads s) (has_exited s).

Inductive client_event : Type :=
| ClientOpen                        (* the handshake completed *)
| ClientMessage (data : string)     (* a data frame arrived *)
| ClientError (message : string)    (* ['error'] on the socket *)
| ClientClosed                      (* ['close'] on the socket *)
| ClientTick                        (* 1 ms elapsed *)
| ClientSIGINT.                     (* the interrupt signal *)

(** One millisecond passes for the interval, if it is live. *)
Definition client_on_tick (s : client_process) : list client_effect * client_process :=
  match messageInterval s with
  | None => ([], s)
  | Some r =>
      if (r <=? 1)%N
      then let '(l, s1) := messageInterval_callback s in
           (l, mkClientProcess (ws_readyState s1) (messageCount s1)
                               (Some MESSAGE_INTERVAL_MS) (clock_reads s1) (has_exited s1))
      else ([], mkClientProcess (ws_readyState s) (messageCount s) (Some (r - 1)%N)
                                (clock_reads s) (has_exited s))
  end.

(** The library's part of each event, then the handler.  ['open'] comes
    once, to a socket that is [CONNECTING]; messages come until the
    ['close']; an ['error'] finds the socket [CLOSING]; ['close'] comes
    once and leaves it [CLOSED].  A process that has exited handles
    nothing more. *)
Definition client_step (e : client_event) (s : client_process)
  : list client_effect * client_process :=
  if has_exited s then ([], s) else
  match e with
  | ClientOpen =>
      if ready_state_eqb (ws_readyState s) CONNECTING
      then client_on_open (with_readyState OPEN s)
      else ([], s)
  | ClientMessage data =>
      if ready_state_eqb (ws_readyState s) OPEN
         || ready_state_eqb (ws_readyState s) CLOSING
      then client_on_message data s
      else ([], s)
  | ClientError message =>
      if ready_state_eqb (ws_readyState s) CLOSED
      then ([], s)
      else client_on_error message (with_readyState CLOSING s)
  | ClientClosed =>
      if ready_state_eqb (ws_readyState s) CLOSED
      then ([], s)
      else client_on_close (with_readyState CLOSED s)
  | ClientTick => client_on_tick s
  | ClientSIGINT => client_on_SIGINT s
  end.

Fixpoint client_run (es : list client_event) (s : client_process)
  : list client_effect * client_process :=
  match es with
  | [] => ([], s)
  | e :: es' =>
      let '(l1, s1) := client_step e s in
      let '(l2, s2) := client_run es' s1 in
      (l1 ++ l2, s2)
  end.

Definition client_trace (es : list client_event) : list client_effect :=
  fst (client_run es client_init).

(** *** Observations on the log of the client *)

(** The [message] fields of the updates sent, in order. *)
Fixpoint updates_sent (l : list client_effect) : list string :=
  match l with
  | [] => []
  | ClientSend (update message _) :: l' => message :: updates_sent l'
  | _ :: l' => updates_sent l'
  end.

Definition is_client_send (e : client_effect) : bool :=
  match e with ClientSend _ => true | _ => false end.

Definition is_client_cleanup (e : client_effect) : bool :=
  match e with ClientClearInterval => true | _ => false end.

Definition is_client_shutdown (e : client_effect) : bool :=
  match e with ClientClose | ClientExit _ => true | _ => false end.

Definition is_ClientSIGINT (e : client_event) : bool :=
  match e with ClientSIGINT => true | _ => false end.

(** The events that close, or begin to close, the socket of the client. *)
Definition client_closes (e : client_event) : bool :=
  match e with
  | ClientError _ | ClientClosed | ClientSIGINT => true
  | _ => false
  end.

Fixpoint client_ticks (es : list client_event) : N :=
  match es with
  | [] => 0
  | ClientTick :: es' => 1 + client_ticks es'
  | _ :: es' => client_ticks es'
  end.

End ClientModel.

(** [setInterval(..., 30000)]: the period of the ping timer, in ms. *)
Definition PING_INTERVAL_MS : N := 30000.

Section Relay.

(** Parsed JSON values and [JSON.parse]; [None] stands for the
    [SyntaxError] that [JSON.parse] throws. *)
Context {json : Type} (JSON_parse : string -> option json).

(** [new Date().toISOString()]: the system clock is read anew at every
    evaluation; [clock k] is what the [k]-th reading returns. *)
Context {timestamp : Type} (clock : nat -> timestamp).

(** The four objects the server serialises with [JSON.stringify]. *)
Inductive notification : Type :=
| Welcome (message : string) (ts : timestamp)
| Echo (original : json) (ts : timestamp)
| Broadcast (message : json) (ts : timestamp)
| Error (message : string).

(** What the handlers do to the outside world, in program order.  A log
    line is the fixed text of the call; the values printed after it are
    left out, but for the payload and the remote address. *)
Inductive effect : Type :=
| Send (to : conn) (n : notification) (d : delivery)  (* to.send(JSON.stringify(n)) *)
| Ping (to : conn) (d : delivery)                     (* to.ping() *)
| Close (to : conn)                                   (* to.close() *)
| ClearInterval (owner : conn)                        (* clearInterval(pingInterval) *)
| ServerClose                                         (* wss.close(cb) *)
| Log (line : string)                                 (* console.log / console.error *)
| Exit (code : nat).                                  (* process.exit(code) *)

(** The state of the process. *)
Record server : Type := mkServer {
  clients : Registry.t;            (* wss.clients *)
  intervals : list (conn * N);     (* live [pingInterval]s: owner, ms to next firing *)
  next_conn : conn;                (* identity of the next socket accepted *)
  date_reads : nat;                (* readings of the clock so far *)
  listening : bool;                (* the listener accepts connections *)
  close_pending : bool;            (* wss.close(cb) called, cb not yet run *)
  exited : bool                    (* process.exit was called *)
}.

Definition init : server :=
  mkServer [] [] 0 0 true false false.

(** *** The handler monad *)

Inductive exn : Type := SyntaxError.

Definition M (A : Type) : Type := server -> list effect * server * (exn + A).

Definition ret {A} (a : A) : M A := fun s => ([], s, inr a).

Definition bind {A B} (m : M A) (k : A -> M B) : M B :=
  fun s =>
    match m s with
    | (l1, s1, inl e) => (l1, s1, inl e)
    | (l1, s1, inr a) =>
        match k a s1 with
        | (l2, s2, r) => (l1 ++ l2, s2, r)
        end
    end.

Definition throw {A} (e : exn) : M A := fun s => ([], s, inl e).

(** [try { body } catch (error) { handler }]: effects of the body up to
    the point of the throw stay. *)
Definition try_catch {A} (body : M A) (handler : exn -> M A) : M A :=
  fun s =>
    match body s with
    | (l1, s1, inl e) =>
        match handler e s1 with
        | (l2, s2, r) => (l1 ++ l2, s2, r)
        end
    | r => r
    end.

Definition gets {A} (f : server -> A) : M A := fun s => ([], s, inr (f s)).
Definition modify (f : server -> server) : M unit := fun s => ([], f s, inr tt).
Definition emit (e : effect) : M unit := fun s => ([e], s, inr tt).

Notation "x <- m ;; k" := (bind m (fun x => k))
  (at level 61, m at next level, right associativity).
Notation "m ;; k" := (bind m (fun _ => k))
  (at level 61, right associativity).

(** [set.forEach(f)] *)
Fixpoint forEach {A} (l : list A) (f : A -> M unit) : M unit :=
  match l with
  | [] => ret tt
  | x :: l' => f x ;; forEach l' f
  end.

(** *** Library calls *)

Definition with_clients (f : Registry.t -> Registry.t) (s : server) : server :=
  mkServer (f (clients s)) (intervals s) (next_conn s) (date_reads s)
           (listening s) (close_pending s) (exited s).

Definition with_intervals (f : list (conn * N) -> list (conn * N)) (s : server) : server :=
  mkServer (clients s) (f (intervals s)) (next_conn s) (date_reads s)
           (listening s) (close_pending s) (exited s).

(** [ws.readyState]; a socket that has left the set has been closed. *)
Definition readyState_of (s : server) (c : conn) : ready_state :=
  match Registry.get (clients s) c with
  | Some x => readyState x
  | None => CLOSED
  end.

Definition transmit (s : server) (c : conn) : delivery :=
  Registry.delivers (clients s) c.

(** [new Date().toISOString()] *)
Definition new_Date : M timestamp :=
  fun s => ([], mkServer (clients s) (intervals s) (next_conn s) (S (date_reads s))
                         (listening s) (close_pending s) (exited s),
            inr (clock (date_reads s))).

(** [JSON.parse(data)] *)
Definition parse (data : string) : M json :=
  match JSON_parse data with
  | Some v => ret v
  | None => throw SyntaxError
  end.

(** [to.send(JSON.stringify(n))], called without a callback: the call
    returns whatever becomes of the frame (see [Registry.delivers]). *)
Definition send (to : conn) (n : notification) : M unit :=
  fun s => ([Send to n (transmit s to)], s, inr tt).

(** [to.ping()] *)
Definition ping (to : conn) : M unit :=
  fun s => ([Ping to (transmit s to)], s, inr tt).

(** [to.close()]: an [OPEN] socket sends its close frame and becomes
    [CLOSING]; on a socket already [CLOSING] or [CLOSED] nothing changes. *)
Definition close (to : conn) : M unit :=
  emit (Close to) ;;
  st <- gets (fun s => readyState_of s to) ;;
  if ready_state_eqb st OPEN
  then modify (with_clients (Registry.set_state to CLOSING))
  else ret tt.

(** [setInterval(cb, 30000)]; the callback is [pingInterval_callback]. *)
Definition setInterval (owner : conn) : M unit :=
  modify (with_intervals (fun ts => ts ++ [(owner, PING_INTERVAL_MS)])).

(** [clearInterval(pingInterval)] *)
Definition clearInterval (owner : conn) : M unit :=
  emit (ClearInterval owner) ;;
  modify (with_intervals (filter (fun t => negb (Nat.eqb (fst t) owner)))).

(** *** The handlers of the server *)

(** [ws.on('message', (data) => { ... })] *)
Definition on_message (ws : conn) (data : string) : M unit :=
  emit (Log (String.append "Received: " data)) ;;
  try_catch
    (message <- parse data ;;
     t <- new_Date ;;
     send ws (Echo message t) ;;
     cs <- gets clients ;;
     forEach cs (fun client =>
       if negb (Nat.eqb (cid client) ws)
          && ready_state_eqb (readyState client) OPEN
       then t' <- new_Date ;;
            send (cid client) (Broadcast message t')
       else ret tt))
    (fun error =>
       emit (Log "Error parsing message:") ;;
       send ws (Error "Invalid JSON format")).

(** [ws.on('error', ...)] *)
Definition on_error (ws : conn) : M unit :=
  emit (Log "WebSocket error:").

(** The two [ws.on('close', ...)] handlers, in the order they were
    attached. *)
Definition on_close (ws : conn) : M unit :=
  emit (Log "Client disconnected") ;;
  clearInterval ws.

(** The callback given to [setInterval]. *)
Definition pingInterval_callback (ws : conn) : M unit :=
  st <- gets (fun s => readyState_of s ws) ;;
  if ready_state_eqb st OPEN then ping ws else ret tt.

(** [ws.on('pong', ...)] *)
Definition on_pong (ws : conn) : M unit :=
  emit (Log "Received pong from client").

(** [wss.on('connection', (ws, req) => { ... })] *)
Definition on_connection (ws : conn) (remoteAddress : string) : M unit :=
  emit (Log (String.append "New client connected from: " remoteAddress)) ;;
  t <- new_Date ;;
  send ws (Welcome "Connected to WebSocket server" t) ;;
  (* the message, error, close and pong handlers are attached here: from
     now on [step] dispatches the events of [ws] to them *)
  setInterval ws.

(** [wss.on('error', ...)] *)
Definition on_server_error : M unit :=
  emit (Log "Server error:").

(** [wss.close(cb)]: the listener stops accepting; [cb] waits for the
    ['close'] of the server. *)
Definition wss_close : M unit :=
  emit ServerClose ;;
  modify (fun s => mkServer (clients s) (intervals s) (next_conn s) (date_reads s)
                            false true (exited s)).

(** [process.on('SIGINT', ...)] *)
Definition on_SIGINT : M unit :=
  emit (Log shutdown_banner) ;;
  cs <- gets clients ;;
  forEach cs (fun client => close (cid client)) ;;
  wss_close.

(** [process.exit(code)] *)
Definition process_exit (code : nat) : M unit :=
  emit (Exit code) ;;
  modify (fun s => mkServer (clients s) (intervals s) (next_conn s) (date_reads s)
                            (listening s) (close_pending s) true).

(** The callback given to [wss.close]. *)
Definition wss_close_callback : M unit :=
  emit (Log "Server closed") ;;
  process_exit 0.

(** *** The event loop *)

(** One millisecond passes: every live interval comes one closer to its
    next firing; one that is due fires and is armed again for a full
    period. *)
Fixpoint fire_due (ts : list (conn * N)) : M (list (conn * N)) :=
  match ts with
  | [] => ret []
  | (owner, r) :: ts' =>
      if (r <=? 1)%N
      then pingInterval_callback owner ;;
           rest <- fire_due ts' ;;
           ret ((owner, PING_INTERVAL_MS) :: rest)
      else rest <- fire_due ts' ;;
           ret ((owner, (r - 1)%N) :: rest)
  end.

Definition on_tick : M unit :=
  ts <- gets intervals ;;
  ts' <- fire_due ts ;;
  modify (with_intervals (fun _ => ts')).

(** What the event loop can deliver to the process. *)
Inductive event : Type :=
| Connection (remoteAddress : string)   (* a handshake completed *)
| Message (c : conn) (data : string)    (* a data frame arrived on [c] *)
| SocketError (c : conn)                (* ['error'] on [c] *)
| SocketClose (c : conn)                (* ['close'] on [c] *)
| Pong (c : conn)                       (* a pong frame arrived on [c] *)
| LinkDown (c : conn)                   (* the transport of [c] died silently *)
| Tick                                  (* 1 ms elapsed *)
| ServerError                           (* ['error'] on the listener *)
| SIGINT                                (* the interrupt signal *)
| ServerClosed.                         (* ['close'] on the listener *)

(** The library's part of each event, then the server's handler.
    - ['connection']: the library creates the socket in state [OPEN] and
      adds it to [wss.clients] before it emits the event, in the same
      turn of the event loop.
    - ['message'] and ['pong'] are emitted for a socket until its
      ['close']: frames that arrive after a local [close()] are still
      delivered while the socket is [CLOSING].
    - ['error']: the library has begun to close the socket, which is
      [CLOSING] when the handler runs.
    - ['close'] is emitted once per socket; the library's own listener,
      attached before those of the server, deletes the socket from
      [wss.clients].  An event for a socket that is not in the set finds
      no handler.
    - the ['close'] of the listener is the only thing the callback of
      [wss.close] waits for.  Neither the handler of the signal nor the
      callback looks at [wss.clients]: the callback runs when that event
      is handled, whatever is still in the set.  The event is not
      ordered after the ['close'] of the sockets: it can be handled
      while sockets on which [close()] was called are still in the set,
      their own ['close'] not yet emitted. *)
Definition dispatch (e : event) : M unit :=
  match e with
  | Connection remoteAddress =>
      ok <- gets listening ;;
      if ok then
        ws <- gets next_conn ;;
        modify (fun s => mkServer (Registry.add (mkClient ws OPEN true) (clients s))
                                  (intervals s) (S ws) (date_reads s)
                                  (listening s) (close_pending s) (exited s)) ;;
        on_connection ws remoteAddress
      else ret tt
  | Message c data =>
      live <- gets (fun s => Registry.has (clients s) c) ;;
      if live then on_message c data else ret tt
  | SocketError c =>
      live <- gets (fun s => Registry.has (clients s) c) ;;
      if live then
        modify (with_clients (Registry.set_state c CLOSING)) ;;
        on_error c
      else ret tt
  | SocketClose c =>
      live <- gets (fun s => Registry.has (clients s) c) ;;
      if live then
        modify (with_clients (Registry.delete c)) ;;
        on_close c
      else ret tt
  | Pong c =>
      live <- gets (fun s => Registry.has (clients s) c) ;;
      if live then on_pong c else ret tt
  | LinkDown c =>
      modify (with_clients (Registry.set_link c false))
  | Tick => on_tick
  | ServerError => on_server_error
  | SIGINT => on_SIGINT
  | ServerClosed =>
      pending <- gets close_pending ;;
      if pending then wss_close_callback else ret tt
  end.

(** A process that has exited handles nothing more. *)
Definition step (e : event) (s : server) : list effect * server :=
  if exited s then ([], s) else
  let '(l, s', _) := dispatch e s in (l, s').

Fixpoint run (es : list event) (s : server) : list effect * server :=
  match es with
  | [] => ([], s)
  | e :: es' =>
      let '(l1, s1) := step e s in
      let '(l2, s2) := run es' s1 in
      (l1 ++ l2, s2)
  end.

Definition trace (es : list event) : list effect := fst (run es init).

Definition reachable (s : server) : Prop := exists es, snd (run es init) = s.

(** *** Observations on effect logs *)

Definition is_welcome (n : notification) : bool :=
  match n with Welcome _ _ => true | _ => false end.
Definition is_echo (n : notification) : bool :=
  match n with Echo _ _ => true | _ => false end.
Definition is_broadcast (n : notification) : bool :=
  match n with Broadcast _ _ => true | _ => false end.
Definition is_error (n : notification) : bool :=
  match n with Error _ => true | _ => false end.

(** What a notification answers: the payload an echo returns. *)
Definition reply_of (n : notification) : option json :=
  match n with Echo original _ => Some original | _ => None end.

(** The calls of [send], in order: receiver and notification. *)
Fixpoint sends (l : list effect) : list (conn * notification) :=
  match l with
  | [] => []
  | Send to n _ :: l' => (to, n) :: sends l'
  | _ :: l' => sends l'
  end.

(** The notifications handed to [c.send], in order. *)
Definition notifs_to (c : conn) (l : list effect) : list notification :=
  map snd (filter (fun p => Nat.eqb (fst p) c) (sends l)).

(** The notifications that reached the peer of [c], in order. *)
Fixpoint received_by (c : conn) (l : list effect) : list notification :=
  match l with
  | [] => []
  | Send to n Delivered :: l' =>
      if Nat.eqb to c then n :: received_by c l' else received_by c l'
  | _ :: l' => received_by c l'
  end.

Definition count_sends (p : notification -> bool) (l : list effect) : nat :=
  List.length (filter (fun x => p (snd x)) (sends l)).

(** The timestamps of the notifications sent, in order. *)
Fixpoint timestamps (l : list (conn * notification)) : list timestamp :=
  match l with
  | [] => []
  | (_, Welcome _ t) :: l' | (_, Echo _ t) :: l' | (_, Broadcast _ t) :: l' =>
      t :: timestamps l'
  | (_, Error _) :: l' => timestamps l'
  end.

Definition is_ping_to (c : conn) (e : effect) : bool :=
  match e with Ping to _ => Nat.eqb to c | _ => false end.
Definition pings_to (c : conn) (l : list effect) : nat :=
  List.length (filter (is_ping_to c) l).

Definition is_cleanup_of (c : conn) (e : effect) : bool :=
  match e with ClearInterval o => Nat.eqb o c | _ => false end.
Definition cleanups_of (c : conn) (l : list effect) : nat :=
  List.length (filter (is_cleanup_of c) l).

Definition is_exit (e : effect) : bool :=
  match e with Exit _ => true | _ => false end.

(** Milliseconds that pass during a run of events. *)
Fixpoint ticks (es : list event) : N :=
  match es with
  | [] => 0
  | Tick :: es' => 1 + ticks es'
  | _ :: es' => ticks es'
  end.

(** The time left on an interval that had [r] ms to go, and the number
    of times it fired, after the event [e]. *)
Definition countdown (e : event) (r : N) : N :=
  match e with
  | Tick => if (r <=? 1)%N then PING_INTERVAL_MS else (r - 1)%N
  | _ => r
  end.

Definition fired (e : event) (r : N) : nat :=
  match e with
  | Tick => if (r <=? 1)%N then 1 else 0
  | _ => 0
  end.

(** The events that close, or begin to close, the socket [c]. *)
Definition closes (c : conn) (e : event) : bool :=
  match e with
  | SocketClose d | SocketError d => Nat.eqb d c
  | SIGINT => true
  | _ => false
  end.

(** The members of [wss.clients] that pass the test of the fan-out loop
    run for a message of [ws]. *)
Definition recipient (ws : conn) (x : client) : bool :=
  negb (Nat.eqb (cid x) ws) && ready_state_eqb (readyState x) OPEN.

Definition open_others (ws : conn) (r : Registry.t) : list client :=
  filter (recipient ws) r.

(** The effects of the fan-out loop over [cs] in closed form, [k] being
    the number of clock readings made before the loop. *)
Fixpoint fanout (r : Registry.t) (ws : conn) (message : json)
         (cs : list client) (k : nat) : list effect :=
  match cs with
  | [] => []
  | x :: cs' =>
      if recipient ws x
      then Send (cid x) (Broadcast message (clock k)) (Registry.delivers r (cid x))
           :: fanout r ws message cs' (S k)
      else fanout r ws message cs' k
  end.

Definition with_reads (k : nat) (s : server) : server :=
  mkServer (clients s) (intervals s) (next_conn s) k
           (listening s) (close_pending s) (exited s).

(** In the log [l], every effect that satisfies [q] comes after one that
    satisfies [p]. *)
Definition precedes (p q : effect -> bool) (l : list effect) : Prop :=
  forall l1 x l2, l = l1 ++ x :: l2 -> q x = true ->
                  exists y, In y l1 /\ p y = true.

Definition is_welcome_to (c : conn) (e : effect) : bool :=
  match e with Send to n _ => Nat.eqb to c && is_welcome n | _ => false end.
Definition is_other_notif_to (c : conn) (e : effect) : bool :=
  match e with Send to n _ => Nat.eqb to c && negb (is_welcome n) | _ => false end.
Definition is_echo_to (c : conn) (e : effect) : bool :=
  match e with Send to n _ => Nat.eqb to c && is_echo n | _ => false end.
Definition is_broadcast_send (e : effect) : bool :=
  match e with Send _ n _ => is_broadcast n | _ => false end.

(** The events a live socket [c] with a working transport can cause or
    undergo are delivered: the process runs and [c] is in the set. *)
Definition serves (s : server) (c : conn) : Prop :=
  exited s = false /\ Registry.has (clients s) c = true.


(** The timer callbacks run by one tick over the intervals [ts], and the
    intervals after it, in closed form. *)
Definition rearm (t : conn * N) : conn * N :=
  if (snd t <=? 1)%N then (fst t, PING_INTERVAL_MS) else (fst t, (snd t - 1)%N).

Fixpoint tick_effects (r : Registry.t) (ts : list (conn * N)) : list effect :=
  match ts with
  | [] => []
  | (owner, rem) :: ts' =>
      if (rem <=? 1)%N
      then match Registry.get r owner with
           | Some x => if ready_state_eqb (readyState x) OPEN
                       then Ping owner (Registry.delivers r owner) :: tick_effects r ts'
                       else tick_effects r ts'
           | None => tick_effects r ts'
           end
      else tick_effects r ts'
  end.

(** The registry after [close()] was called on each socket of [cs]. *)
Definition close_one (r : Registry.t) (x : client) : Registry.t :=
  match Registry.get r (cid x) with
  | Some y => if ready_state_eqb (readyState y) OPEN
              then Registry.set_state (cid x) CLOSING r else r
  | None => r
  end.

Definition close_all (cs : list client) (r : Registry.t) : Registry.t :=
  fold_left close_one cs r.

(** [close()] on the socket [c], seen on one member of the set. *)
Definition shut (c : conn) (x : client) : client :=
  if Nat.eqb (cid x) c && ready_state_eqb (readyState x) OPEN
  then mkClient (cid x) CLOSING (link_up x) else x.

(** What holds of every state the process can be in. *)
Record Inv (s : server) : Prop := mkInv {
  inv_nodup : NoDup (Registry.ids (clients s));
  inv_fresh : forall c, In c (Registry.ids (clients s)) -> c < next_conn s;
  inv_state : forall x, In x (clients s) ->
                        readyState x = OPEN \/ readyState x = CLOSING;
  inv_timers : map fst (intervals s) = Registry.ids (clients s);
  inv_due : forall o r, In (o, r) (intervals s) -> (1 <= r <= PING_INTERVAL_MS)%N;
  inv_shutdown : close_pending s = true ->
                 listening s = false /\
                 forall x, In x (clients s) -> readyState x <> OPEN
}.

(** The calls by which the server closes a socket, closes the listener or
    ends the process. *)
Definition is_shutdown_effect (e : effect) : bool :=
  match e with
  | Close _ | ServerClose | Exit _ => true
  | _ => false
  end.

Definition is_SIGINT (e : event) : bool :=
  match e with SIGINT => true | _ => false end.

(** The sockets [send] was called on, in order. *)
Definition receivers (l : list effect) : list conn := map fst (sends l).

(** The number of welcomes handed to the socket [c]. *)
Definition welcomes_to (c : conn) (l : list effect) : nat :=
  List.length (filter (is_welcome_to c) l).

(** ** Closed forms of the handlers *)

Lemma ready_state_eqb_eq a b : ready_state_eqb a b = true <-> a = b.
Proof. destruct a, b; simpl; split; intro H; congruence. Qed.

Lemma with_reads_same s : with_reads (date_reads s) s = s.
Proof. destruct s; reflexivity. Qed.

Lemma forEach_fanout ws message cs : forall s,
  forEach cs (fun client =>
       if negb (Nat.eqb (cid client) ws)
          && ready_state_eqb (readyState client) OPEN
       then t' <- new_Date ;;
            send (cid client) (Broadcast message t')
       else ret tt) s
  = (fanout (clients s) ws message cs (date_reads s),
     with_reads (date_reads s + List.length (open_others ws cs)) s,
     inr tt).
Proof.
  induction cs as [|x cs IH]; intros s.
  - simpl. rewrite Nat.add_0_r, with_reads_same. reflexivity.
  - cbn [forEach fanout open_others filter]. unfold recipient at 1 2.
    unfold bind at 1.
    destruct (negb (Nat.eqb (cid x) ws) && ready_state_eqb (readyState x) OPEN).
    + unfold bind at 1, new_Date, send, transmit. cbn [clients].
      rewrite IH. cbn [clients date_reads List.length app].
      unfold with_reads. cbn [clients intervals next_conn date_reads listening close_pending exited].
      rewrite Nat.add_succ_r. reflexivity.
    + unfold ret at 1. rewrite IH. reflexivity.
Qed.

Lemma on_message_parsed ws data message s :
  JSON_parse data = Some message ->
  on_message ws data s =
    (Log (String.append "Received: " data)
       :: Send ws (Echo message (clock (date_reads s))) (transmit s ws)
       :: fanout (clients s) ws message (clients s) (S (date_reads s)),
     with_reads (S (date_reads s) + List.length (open_others ws (clients s))) s,
     inr tt).
Proof.
  intros HP. unfold on_message, try_catch, parse. rewrite HP.
  unfold bind at 1, emit at 1.
  unfold bind at 1, ret at 1.
  unfold bind at 1, new_Date at 1.
  unfold bind at 1, send at 1, transmit.
  unfold bind at 1, gets at 1.
  rewrite forEach_fanout. reflexivity.
Qed.

Lemma on_message_unparsed ws data s :
  JSON_parse data = None ->
  on_message ws data s =
    ([Log (String.append "Received: " data);
      Log "Error parsing message:";
      Send ws (Error "Invalid JSON format") (transmit s ws)],
     s, inr tt).
Proof.
  intros HP. unfold on_message, try_catch, parse. rewrite HP. reflexivity.
Qed.


Lemma close_all_cons x cs s f :
  f (clients s) = close_one (clients s) x ->
  with_clients (close_all cs) (with_clients f s) = with_clients (close_all (x :: cs)) s.
Proof.
  intros H. unfold with_clients, close_all.
  cbn [fold_left clients intervals next_conn date_reads listening close_pending exited].
  rewrite H. reflexivity.
Qed.

Lemma forEach_close cs : forall s,
  forEach cs (fun client => close (cid client)) s
  = (map (fun x => Close (cid x)) cs,
     with_clients (close_all cs) s, inr tt).
Proof.
  induction cs as [|x cs IH]; intros s.
  - destruct s; reflexivity.
  - cbn [forEach map]. unfold bind at 1, close at 1.
    unfold bind at 1, emit at 1.
    unfold bind at 1, gets at 1. unfold readyState_of.
    destruct (Registry.get (clients s) (cid x)) as [y|] eqn:Hg.
    + destruct (ready_state_eqb (readyState y) OPEN) eqn:Ho.
      * unfold modify. rewrite IH. cbn [app].
        rewrite (close_all_cons x); [reflexivity|].
        unfold close_one. rewrite Hg, Ho. reflexivity.
      * unfold ret at 1. rewrite IH. cbn [app].
        rewrite <- (close_all_cons x cs s (fun r => r)).
        -- destruct s; reflexivity.
        -- unfold close_one. rewrite Hg, Ho. reflexivity.
    + cbn [ready_state_eqb]. unfold ret at 1. rewrite IH. cbn [app].
      rewrite <- (close_all_cons x cs s (fun r => r)).
      * destruct s; reflexivity.
      * unfold close_one. rewrite Hg. reflexivity.
Qed.

Lemma fire_due_closed r0 ts : forall s,
  clients s = r0 ->
  fire_due ts s = (tick_effects r0 ts, s, inr (map rearm ts)).
Proof.
  induction ts as [|[o rem] ts IH]; intros s Hs.
  - reflexivity.
  - cbn [fire_due tick_effects map]. unfold rearm at 1. cbn [fst snd].
    destruct (rem <=? 1)%N.
    + unfold bind at 1, pingInterval_callback.
      unfold bind at 1, gets at 1, readyState_of. rewrite Hs.
      destruct (Registry.get r0 o) as [x|];
        [destruct (ready_state_eqb (readyState x) OPEN)|];
        cbn [ready_state_eqb]; unfold ping, transmit, ret, bind;
        rewrite ?Hs, (IH s Hs); cbv beta iota; cbn [app];
        rewrite ?app_nil_r; reflexivity.
    + unfold bind. rewrite (IH s Hs). unfold ret. cbv beta iota.
      rewrite app_nil_r. reflexivity.
Qed.

(** ** The set of clients *)

Lemma has_In r c : Registry.has r c = true <-> In c (Registry.ids r).
Proof.
  unfold Registry.has, Registry.ids. rewrite existsb_exists, in_map_iff.
  split; intros [x [H1 H2]]; exists x.
  - apply Nat.eqb_eq in H2. tauto.
  - split; [tauto|]. apply Nat.eqb_eq. tauto.
Qed.

Lemma has_false_In r c : Registry.has r c = false <-> ~ In c (Registry.ids r).
Proof.
  rewrite <- has_In. destruct (Registry.has r c); split; congruence.
Qed.

Lemma get_Some r c x : Registry.get r c = Some x -> In x r /\ cid x = c.
Proof.
  unfold Registry.get. intros H. apply find_some in H.
  rewrite Nat.eqb_eq in H. exact H.
Qed.

Lemma get_None r c : Registry.get r c = None -> ~ In c (Registry.ids r).
Proof.
  unfold Registry.get, Registry.ids. intros H Hin.
  apply in_map_iff in Hin. destruct Hin as [x [Hx Hin]].
  apply (find_none _ _ H) in Hin. apply Nat.eqb_neq in Hin. congruence.
Qed.

Lemma unique_member r x y :
  NoDup (Registry.ids r) -> In x r -> In y r -> cid x = cid y -> x = y.
Proof.
  unfold Registry.ids. induction r as [|a r IH]; intros ND Hx Hy E; [destruct Hx|].
  cbn [map] in ND. inversion ND as [|? ? Hn ND']; subst.
  destruct Hx as [Hx|Hx], Hy as [Hy|Hy]; subst.
  - reflexivity.
  - exfalso. apply Hn. rewrite E. apply in_map. assumption.
  - exfalso. apply Hn. rewrite <- E. apply in_map. assumption.
  - apply IH; assumption.
Qed.

Lemma get_member r x :
  NoDup (Registry.ids r) -> In x r -> Registry.get r (cid x) = Some x.
Proof.
  intros ND Hx. destruct (Registry.get r (cid x)) as [y|] eqn:Hg.
  - apply get_Some in Hg. destruct Hg as [Hy E].
    f_equal. apply (unique_member r); assumption.
  - apply get_None in Hg. exfalso. apply Hg. apply in_map. assumption.
Qed.

Lemma ids_set_state c st r : Registry.ids (Registry.set_state c st r) = Registry.ids r.
Proof.
  unfold Registry.ids, Registry.set_state. rewrite map_map. apply map_ext.
  intros x. destruct (Nat.eqb (cid x) c); reflexivity.
Qed.

Lemma ids_set_link c up r : Registry.ids (Registry.set_link c up r) = Registry.ids r.
Proof.
  unfold Registry.ids, Registry.set_link. rewrite map_map. apply map_ext.
  intros x. destruct (Nat.eqb (cid x) c); reflexivity.
Qed.

Lemma ids_delete c r :
  Registry.ids (Registry.delete c r)
  = filter (fun d => negb (Nat.eqb d c)) (Registry.ids r).
Proof.
  unfold Registry.ids, Registry.delete. rewrite filter_map_swap. reflexivity.
Qed.

Lemma In_ids_delete c d r :
  In d (Registry.ids (Registry.delete c r)) <-> In d (Registry.ids r) /\ d <> c.
Proof.
  rewrite ids_delete, filter_In, negb_true_iff, Nat.eqb_neq. tauto.
Qed.

Lemma add_fresh x r :
  ~ In (cid x) (Registry.ids r) -> Registry.add x r = r ++ [x].
Proof.
  intros H. unfold Registry.add. apply has_false_In in H. rewrite H. reflexivity.
Qed.

Lemma ids_shut c r : Registry.ids (map (shut c) r) = Registry.ids r.
Proof.
  unfold Registry.ids. rewrite map_map. apply map_ext. intros x. unfold shut.
  destruct (Nat.eqb (cid x) c && ready_state_eqb (readyState x) OPEN); reflexivity.
Qed.

Lemma close_one_shut r a :
  NoDup (Registry.ids r) -> close_one r a = map (shut (cid a)) r.
Proof.
  intros ND. unfold close_one.
  destruct (Registry.get r (cid a)) as [y|] eqn:Hg.
  - apply get_Some in Hg. destruct Hg as [Hy E].
    destruct (ready_state_eqb (readyState y) OPEN) eqn:Ho.
    + unfold Registry.set_state. apply map_ext_in. intros x Hx. unfold shut.
      destruct (Nat.eqb (cid x) (cid a)) eqn:Hc; [|reflexivity].
      apply Nat.eqb_eq in Hc.
      assert (x = y) by (apply (unique_member r); congruence). subst x.
      rewrite Ho. reflexivity.
    + rewrite <- (map_id r) at 1. apply map_ext_in. intros x Hx. unfold shut.
      destruct (Nat.eqb (cid x) (cid a)) eqn:Hc; [|reflexivity].
      apply Nat.eqb_eq in Hc.
      assert (x = y) by (apply (unique_member r); congruence). subst x.
      rewrite Ho. reflexivity.
  - apply get_None in Hg.
    rewrite <- (map_id r) at 1. apply map_ext_in. intros x Hx. unfold shut.
    destruct (Nat.eqb (cid x) (cid a)) eqn:Hc; [|reflexivity].
    apply Nat.eqb_eq in Hc. exfalso. apply Hg. rewrite <- Hc.
    apply in_map. assumption.
Qed.

Lemma close_all_shut cs : forall r,
  NoDup (Registry.ids r) ->
  close_all cs r = fold_left (fun r' a => map (shut (cid a)) r') cs r.
Proof.
  induction cs as [|a cs IH]; intros r ND; [reflexivity|].
  unfold close_all in *. cbn [fold_left].
  rewrite (close_one_shut r a ND). apply IH. rewrite ids_shut. assumption.
Qed.

Lemma ids_close_all cs : forall r,
  NoDup (Registry.ids r) -> Registry.ids (close_all cs r) = Registry.ids r.
Proof.
  intros r ND. rewrite close_all_shut by assumption. clear ND. revert r.
  induction cs as [|a cs IH]; intros r; [reflexivity|].
  cbn [fold_left]. rewrite IH. apply ids_shut.
Qed.

(** After [close()] on every socket of [cs], a member is as it was in
    [r], or it was [OPEN], is one of [cs], and is now [CLOSING]. *)
Lemma In_close_all cs : forall r x,
  NoDup (Registry.ids r) ->
  In x (close_all cs r) ->
  exists x0, In x0 r /\ cid x = cid x0 /\ link_up x = link_up x0 /\
    ((In (cid x0) (Registry.ids cs) /\ readyState x0 = OPEN /\ readyState x = CLOSING)
     \/ (x = x0 /\ (In (cid x0) (Registry.ids cs) -> readyState x0 <> OPEN))).
Proof.
  intros r x ND. rewrite close_all_shut by assumption. clear ND. revert r x.
  induction cs as [|a cs IH]; intros r x Hx.
  - exists x. cbn in *. intuition.
  - cbn [fold_left] in Hx. apply IH in Hx.
    destruct Hx as [x1 [Hx1 [E1 [L1 Hc]]]].
    apply in_map_iff in Hx1. destruct Hx1 as [x0 [Hs Hx0]].
    exists x0. split; [assumption|].
    unfold shut in Hs.
    destruct (Nat.eqb (cid x0) (cid a)) eqn:Hid;
      destruct (ready_state_eqb (readyState x0) OPEN) eqn:Ho;
      cbn [andb] in Hs; subst x1; cbn [cid link_up readyState] in *.
    + apply Nat.eqb_eq in Hid. apply ready_state_eqb_eq in Ho.
      split; [assumption|]. split; [assumption|]. left.
      split; [left; congruence|]. split; [assumption|].
      destruct Hc as [[_ [Hc _]]|[Hc _]]; [discriminate|subst x; reflexivity].
    + split; [assumption|]. split; [assumption|].
      assert (Hno : readyState x0 <> OPEN).
      { intros C. apply ready_state_eqb_eq in C. congruence. }
      destruct Hc as [[_ [Hc _]]|[Hc _]]; [contradiction|].
      right. split; [assumption|]. intros _. assumption.
    + split; [assumption|]. split; [assumption|].
      apply Nat.eqb_neq in Hid.
      destruct Hc as [[Hi [Hc1 Hc2]]|[Hc1 Hc2]].
      * left. split; [right; assumption|]. tauto.
      * right. split; [assumption|]. intros [C|C]; [congruence|]. auto.
    + split; [assumption|]. split; [assumption|].
      apply Nat.eqb_neq in Hid.
      destruct Hc as [[Hi [Hc1 Hc2]]|[Hc1 Hc2]].
      * left. split; [right; assumption|]. tauto.
      * right. split; [assumption|]. intros [C|C]; [congruence|]. auto.
Qed.


(** *** What each event does *)

Lemma step_running e s :
  exited s = false ->
  step e s = (fst (fst (dispatch e s)), snd (fst (dispatch e s))).
Proof.
  intros H. unfold step. rewrite H. destruct (dispatch e s) as [[l s'] r]. reflexivity.
Qed.

Lemma step_exited e s : exited s = true -> step e s = ([], s).
Proof. intros H. unfold step. rewrite H. reflexivity. Qed.

Lemma dispatch_connection a s :
  listening s = true ->
  dispatch (Connection a) s =
    ([Log (String.append "New client connected from: " a);
      Send (next_conn s) (Welcome "Connected to WebSocket server" (clock (date_reads s)))
           (Registry.delivers
              (Registry.add (mkClient (next_conn s) OPEN true) (clients s))
              (next_conn s))],
     mkServer (Registry.add (mkClient (next_conn s) OPEN true) (clients s))
              (intervals s ++ [(next_conn s, PING_INTERVAL_MS)])
              (S (next_conn s)) (S (date_reads s))
              (listening s) (close_pending s) (exited s),
     inr tt).
Proof.
  intros H. destruct s; cbn in H; subst. reflexivity.
Qed.

Lemma dispatch_connection_refused a s :
  listening s = false -> dispatch (Connection a) s = ([], s, inr tt).
Proof.
  intros H. unfold dispatch. unfold bind at 1, gets at 1. rewrite H. reflexivity.
Qed.

Lemma dispatch_message c data s :
  Registry.has (clients s) c = true ->
  dispatch (Message c data) s = on_message c data s.
Proof.
  intros H. unfold dispatch. unfold bind at 1, gets at 1. rewrite H.
  destruct (on_message c data s) as [[l s'] r]. reflexivity.
Qed.

Lemma dispatch_message_dead c data s :
  Registry.has (clients s) c = false ->
  dispatch (Message c data) s = ([], s, inr tt).
Proof.
  intros H. unfold dispatch. unfold bind at 1, gets at 1. rewrite H. reflexivity.
Qed.

Lemma dispatch_error c s :
  dispatch (SocketError c) s =
    if Registry.has (clients s) c
    then ([Log "WebSocket error:"],
          with_clients (Registry.set_state c CLOSING) s, inr tt)
    else ([], s, inr tt).
Proof.
  unfold dispatch. unfold bind at 1, gets at 1.
  destruct (Registry.has (clients s) c); reflexivity.
Qed.

Lemma dispatch_close c s :
  dispatch (SocketClose c) s =
    if Registry.has (clients s) c
    then ([Log "Client disconnected"; ClearInterval c],
          with_intervals (filter (fun t => negb (Nat.eqb (fst t) c)))
                         (with_clients (Registry.delete c) s),
          inr tt)
    else ([], s, inr tt).
Proof.
  unfold dispatch. unfold bind at 1, gets at 1.
  destruct (Registry.has (clients s) c); reflexivity.
Qed.

Lemma dispatch_pong c s :
  dispatch (Pong c) s =
    if Registry.has (clients s) c
    then ([Log "Received pong from client"], s, inr tt)
    else ([], s, inr tt).
Proof.
  unfold dispatch. unfold bind at 1, gets at 1.
  destruct (Registry.has (clients s) c); reflexivity.
Qed.

Lemma dispatch_link_down c s :
  dispatch (LinkDown c) s
  = ([], with_clients (Registry.set_link c false) s, inr tt).
Proof. reflexivity. Qed.

Lemma dispatch_server_error s :
  dispatch ServerError s = ([Log "Server error:"], s, inr tt).
Proof. reflexivity. Qed.

Lemma dispatch_tick s :
  dispatch Tick s =
    (tick_effects (clients s) (intervals s),
     with_intervals (fun _ => map rearm (intervals s)) s, inr tt).
Proof.
  unfold dispatch, on_tick. unfold bind at 1, gets at 1.
  unfold bind at 1. rewrite (fire_due_closed (clients s) (intervals s) s eq_refl).
  unfold modify. cbn [app]. rewrite app_nil_r. reflexivity.
Qed.

Lemma dispatch_sigint s :
  dispatch SIGINT s =
    (Log shutdown_banner
       :: map (fun x => Close (cid x)) (clients s) ++ [ServerClose],
     mkServer (close_all (clients s) (clients s)) (intervals s) (next_conn s)
              (date_reads s) false true (exited s),
     inr tt).
Proof.
  unfold dispatch, on_SIGINT. unfold bind at 1, emit at 1.
  unfold bind at 1, gets at 1.
  unfold bind at 1. rewrite forEach_close.
  unfold wss_close, bind, emit, modify, with_clients.
  cbn [clients intervals next_conn date_reads listening close_pending exited app].
  reflexivity.
Qed.

Lemma dispatch_server_closed s :
  dispatch ServerClosed s =
    if close_pending s
    then ([Log "Server closed"; Exit 0],
          mkServer (clients s) (intervals s) (next_conn s) (date_reads s)
                   (listening s) (close_pending s) true,
          inr tt)
    else ([], s, inr tt).
Proof.
  destruct s as [cs ts n k l p x]. destruct p; reflexivity.
Qed.

(** No handler lets an exception escape. *)
Lemma dispatch_returns e s : snd (dispatch e s) = inr tt.
Proof.
  destruct e as [a|c data|c|c|c|c| | | |].
  - destruct (listening s) eqn:H.
    + rewrite dispatch_connection by assumption. reflexivity.
    + rewrite dispatch_connection_refused by assumption. reflexivity.
  - destruct (Registry.has (clients s) c) eqn:H.
    + rewrite dispatch_message by assumption.
      destruct (JSON_parse data) as [m|] eqn:HP.
      * rewrite (on_message_parsed _ _ m) by assumption. reflexivity.
      * rewrite on_message_unparsed by assumption. reflexivity.
    + rewrite dispatch_message_dead by assumption. reflexivity.
  - rewrite dispatch_error. destruct (Registry.has (clients s) c); reflexivity.
  - rewrite dispatch_close. destruct (Registry.has (clients s) c); reflexivity.
  - rewrite dispatch_pong. destruct (Registry.has (clients s) c); reflexivity.
  - reflexivity.
  - rewrite dispatch_tick. reflexivity.
  - reflexivity.
  - rewrite dispatch_sigint. reflexivity.
  - rewrite dispatch_server_closed.
    destruct (close_pending s); reflexivity.
Qed.


(** ** Runs and what they preserve *)

Lemma run_app es1 : forall es2 s,
  run (es1 ++ es2) s =
    (fst (run es1 s) ++ fst (run es2 (snd (run es1 s))),
     snd (run es2 (snd (run es1 s)))).
Proof.
  induction es1 as [|e es1 IH]; intros es2 s.
  - cbn. destruct (run es2 s); reflexivity.
  - cbn [app run]. destruct (step e s) as [l1 s1]. rewrite IH.
    destruct (run es1 s1) as [l2 s2]. cbn [fst snd].
    rewrite app_assoc. reflexivity.
Qed.

Lemma run_snoc es e s :
  run (es ++ [e]) s =
    (fst (run es s) ++ fst (step e (snd (run es s))),
     snd (step e (snd (run es s)))).
Proof.
  rewrite run_app. cbn [run]. destruct (step e (snd (run es s))) as [l s'].
  cbn [fst snd]. rewrite app_nil_r. reflexivity.
Qed.

Lemma run_cons e es s :
  run (e :: es) s =
    (fst (step e s) ++ fst (run es (snd (step e s))),
     snd (run es (snd (step e s)))).
Proof.
  cbn [run]. destruct (step e s) as [l1 s1]. cbn [fst snd].
  destruct (run es s1); reflexivity.
Qed.

(** Induction on a run, from its first state onwards. *)
Lemma run_invariant (P : list effect -> server -> Prop) s0 :
  P [] s0 ->
  (forall t s e, P t s -> P (t ++ fst (step e s)) (snd (step e s))) ->
  forall es, P (fst (run es s0)) (snd (run es s0)).
Proof.
  intros H0 Hstep es. induction es as [|e es IH] using rev_ind.
  - exact H0.
  - rewrite run_snoc. cbn [fst snd]. apply Hstep. exact IH.
Qed.

Lemma Inv_init : Inv init.
Proof.
  constructor; cbn; try (intros; contradiction); try discriminate.
  - constructor.
  - reflexivity.
Qed.

Lemma Inv_with_reads k s : Inv s -> Inv (with_reads k s).
Proof. intros [H1 H2 H3 H4 H5 H6]. constructor; assumption. Qed.

Lemma rearm_fst ts : map fst (map rearm ts) = map fst ts.
Proof.
  rewrite map_map. apply map_ext. intros [o r]. unfold rearm. cbn [fst snd].
  destruct (r <=? 1)%N; reflexivity.
Qed.

Lemma on_message_state ws data s :
  exists k, snd (fst (on_message ws data s)) = with_reads k s.
Proof.
  destruct (JSON_parse data) as [m|] eqn:HP.
  - rewrite (on_message_parsed _ _ m) by assumption. eexists. reflexivity.
  - rewrite on_message_unparsed by assumption. exists (date_reads s).
    cbn [fst snd]. symmetry. apply with_reads_same.
Qed.

Lemma step_Inv e s : Inv s -> Inv (snd (step e s)).
Proof.
  intros I. destruct (exited s) eqn:Hx.
  { rewrite step_exited by assumption. exact I. }
  rewrite step_running by assumption. cbn [snd].
  assert (I0 : Inv s) by exact I.
  destruct I as [ND FR ST TM DU SH].
  destruct e as [a|c data|c|c|c|c| | | |].
  - (* Connection *)
    destruct (listening s) eqn:Hl.
    + rewrite dispatch_connection by assumption. cbn [fst snd].
      assert (Hn : ~ In (cid (mkClient (next_conn s) OPEN true)) (Registry.ids (clients s))).
      { cbn [cid]. intros C. apply FR in C. lia. }
      rewrite (add_fresh _ _ Hn).
      constructor; cbn [clients intervals next_conn close_pending listening exited].
      * unfold Registry.ids. rewrite map_app. apply NoDup_app; [assumption| |].
        -- cbn. constructor; [intros []|constructor].
        -- intros d Hd [C|[]]. cbn in C. subst d. apply Hn. exact Hd.
      * intros d Hd. unfold Registry.ids in Hd. rewrite map_app in Hd.
        apply in_app_or in Hd. destruct Hd as [Hd|[Hd|[]]].
        -- apply FR in Hd. lia.
        -- cbn in Hd. lia.
      * intros x Hin. apply in_app_or in Hin. destruct Hin as [Hin|[Hin|[]]].
        -- apply ST. assumption.
        -- subst x. left. reflexivity.
      * unfold Registry.ids. rewrite !map_app. cbn [map fst cid].
        f_equal. exact TM.
      * intros o r Hin. apply in_app_or in Hin. destruct Hin as [Hin|[Hin|[]]].
        -- apply (DU o). assumption.
        -- inversion Hin; subst. unfold PING_INTERVAL_MS. lia.
      * intros Hp. apply SH in Hp. destruct Hp as [Hp _]. congruence.
    + rewrite dispatch_connection_refused by assumption. exact I0.
  - (* Message *)
    destruct (Registry.has (clients s) c) eqn:Hh.
    + rewrite dispatch_message by assumption.
      destruct (on_message_state c data s) as [k Hk]. rewrite Hk.
      apply Inv_with_reads. exact I0.
    + rewrite dispatch_message_dead by assumption. exact I0.
  - (* SocketError *)
    rewrite dispatch_error. destruct (Registry.has (clients s) c);
      [|exact I0].
    constructor; cbn [fst snd with_clients clients intervals next_conn
                      close_pending listening exited].
    + rewrite ids_set_state. assumption.
    + rewrite ids_set_state. assumption.
    + intros x Hin. unfold Registry.set_state in Hin.
      apply in_map_iff in Hin. destruct Hin as [x0 [E Hin]].
      destruct (Nat.eqb (cid x0) c); subst x; [right; reflexivity|auto].
    + rewrite ids_set_state. assumption.
    + assumption.
    + intros Hp. destruct (SH Hp) as [Hl Ho]. split; [assumption|].
      intros x Hin. unfold Registry.set_state in Hin.
      apply in_map_iff in Hin. destruct Hin as [x0 [E Hin]].
      destruct (Nat.eqb (cid x0) c); subst x; [discriminate|auto].
  - (* SocketClose *)
    rewrite dispatch_close. destruct (Registry.has (clients s) c);
      [|exact I0].
    constructor; cbn [fst snd with_clients with_intervals clients intervals
                      next_conn close_pending listening exited].
    + rewrite ids_delete. apply NoDup_filter. assumption.
    + intros d Hd. apply In_ids_delete in Hd. apply FR. tauto.
    + intros x Hin. apply filter_In in Hin. apply ST. tauto.
    + rewrite ids_delete, <- TM, filter_map_swap. reflexivity.
    + intros o r Hin. apply filter_In in Hin. apply (DU o). tauto.
    + intros Hp. destruct (SH Hp) as [Hl Ho]. split; [assumption|].
      intros x Hin. apply filter_In in Hin. apply Ho. tauto.
  - (* Pong *)
    rewrite dispatch_pong. destruct (Registry.has (clients s) c); exact I0.
  - (* LinkDown *)
    constructor; cbn [dispatch modify fst snd with_clients clients intervals
                      next_conn close_pending listening exited].
    + rewrite ids_set_link. assumption.
    + rewrite ids_set_link. assumption.
    + intros x Hin. unfold Registry.set_link in Hin.
      apply in_map_iff in Hin. destruct Hin as [x0 [E Hin]].
      destruct (Nat.eqb (cid x0) c); subst x; cbn [readyState]; auto.
    + rewrite ids_set_link. assumption.
    + assumption.
    + intros Hp. destruct (SH Hp) as [Hl Ho]. split; [assumption|].
      intros x Hin. unfold Registry.set_link in Hin.
      apply in_map_iff in Hin. destruct Hin as [x0 [E Hin]].
      destruct (Nat.eqb (cid x0) c); subst x; cbn [readyState]; auto.
  - (* Tick *)
    rewrite dispatch_tick.
    constructor; cbn [fst snd with_intervals clients intervals
                      next_conn close_pending listening exited]; try assumption.
    + rewrite rearm_fst. assumption.
    + intros o r Hin. apply in_map_iff in Hin. destruct Hin as [[o0 r0] [E Hin]].
      apply DU in Hin. unfold rearm in E. cbn [fst snd] in E.
      unfold PING_INTERVAL_MS in *.
      destruct (N.leb_spec r0 1); inversion E; subst; lia.
  - (* ServerError *)
    exact I0.
  - (* SIGINT *)
    rewrite dispatch_sigint.
    constructor; cbn [fst snd clients intervals next_conn close_pending
                      listening exited].
    + rewrite ids_close_all; assumption.
    + rewrite ids_close_all; assumption.
    + intros x Hin. apply In_close_all in Hin; [|assumption].
      destruct Hin as [x0 [Hx0 [_ [_ [[_ [_ Hc]]|[Hc _]]]]]].
      * right. assumption.
      * subst x. apply ST. assumption.
    + rewrite ids_close_all; assumption.
    + assumption.
    + intros _. split; [reflexivity|].
      intros x Hin. apply In_close_all in Hin; [|assumption].
      destruct Hin as [x0 [Hx0 [_ [_ [[_ [_ Hc]]|[Hc Hno]]]]]].
      * congruence.
      * subst x. apply Hno. apply in_map. assumption.
  - (* ServerClosed *)
    rewrite dispatch_server_closed.
    destruct (close_pending s) eqn:Hp; [|exact I0].
    constructor; cbn [fst snd clients intervals next_conn close_pending
                      listening exited]; assumption.
Qed.

Lemma run_Inv es : forall s, Inv s -> Inv (snd (run es s)).
Proof.
  induction es as [|e es IH]; intros s I; [exact I|].
  rewrite run_cons. cbn [snd]. apply IH. apply step_Inv. exact I.
Qed.

Lemma reachable_Inv s : reachable s -> Inv s.
Proof. intros [es H]. subst s. apply run_Inv. apply Inv_init. Qed.

Lemma reachable_step e s : reachable s -> reachable (snd (step e s)).
Proof.
  intros [es H]. exists (es ++ [e]). rewrite run_snoc. cbn [snd]. rewrite H.
  reflexivity.
Qed.

Lemma reachable_run es s : reachable s -> reachable (snd (run es s)).
Proof.
  intros [es0 H]. exists (es0 ++ es). rewrite run_app. cbn [snd]. rewrite H.
  reflexivity.
Qed.


(** ** The fan-out loop *)

Lemma notifs_to_send o to n d l :
  notifs_to o (Send to n d :: l)
  = if Nat.eqb to o then n :: notifs_to o l else notifs_to o l.
Proof.
  unfold notifs_to. cbn [sends filter fst]. destruct (Nat.eqb to o); reflexivity.
Qed.

Lemma recipient_not_self ws x : recipient ws x = true -> cid x <> ws.
Proof.
  unfold recipient. rewrite andb_true_iff, negb_true_iff, Nat.eqb_neq. tauto.
Qed.

Lemma recipient_open ws x : recipient ws x = true -> readyState x = OPEN.
Proof.
  unfold recipient. rewrite andb_true_iff, ready_state_eqb_eq. tauto.
Qed.

Lemma In_open_others ws r x :
  In x (open_others ws r) <-> In x r /\ cid x <> ws /\ readyState x = OPEN.
Proof.
  unfold open_others, recipient.
  rewrite filter_In, andb_true_iff, negb_true_iff, Nat.eqb_neq, ready_state_eqb_eq.
  tauto.
Qed.

Lemma self_not_in_open_others ws r : ~ In ws (Registry.ids (open_others ws r)).
Proof.
  unfold Registry.ids. intros H. apply in_map_iff in H.
  destruct H as [x [E H]]. apply In_open_others in H. tauto.
Qed.

Lemma notifs_to_fanout_absent r ws m o cs : forall k,
  ~ In o (Registry.ids (open_others ws cs)) ->
  notifs_to o (fanout r ws m cs k) = [].
Proof.
  induction cs as [|x cs IH]; intros k H; [reflexivity|].
  cbn [fanout]. unfold open_others in H. cbn [filter] in H.
  destruct (recipient ws x).
  - cbn [Registry.ids map] in H. rewrite notifs_to_send.
    destruct (Nat.eqb_spec (cid x) o) as [E|E];
      [exfalso; apply H; left; exact E|].
    apply IH. intros C. apply H. right. exact C.
  - apply IH. exact H.
Qed.

Lemma notifs_to_fanout_present r ws m o cs : forall k,
  NoDup (Registry.ids cs) ->
  In o (Registry.ids (open_others ws cs)) ->
  exists t, notifs_to o (fanout r ws m cs k) = [Broadcast m t].
Proof.
  induction cs as [|x cs IH]; intros k ND H; [destruct H|].
  cbn [Registry.ids map] in ND. inversion ND as [|? ? Hn ND']; subst.
  cbn [fanout]. unfold open_others in H. cbn [filter] in H.
  destruct (recipient ws x).
  - cbn [Registry.ids map] in H. rewrite notifs_to_send.
    destruct (Nat.eqb_spec (cid x) o) as [E|E].
    + exists (clock k). rewrite notifs_to_fanout_absent; [reflexivity|].
      intros C. apply Hn. subst o. unfold Registry.ids in C.
      apply in_map_iff in C. destruct C as [y [Ey Hy]].
      apply filter_In in Hy. rewrite <- Ey. apply in_map. tauto.
    + apply IH; [assumption|]. destruct H as [H|H]; [contradiction|exact H].
  - apply IH; assumption.
Qed.

Lemma received_by_fanout r ws m o cs : forall k,
  received_by o (fanout r ws m cs k)
  = match Registry.delivers r o with
    | Delivered => notifs_to o (fanout r ws m cs k)
    | Failed => []
    end.
Proof.
  induction cs as [|x cs IH]; intros k.
  - cbn. destruct (Registry.delivers r o); reflexivity.
  - cbn [fanout]. destruct (recipient ws x); [|apply IH].
    rewrite notifs_to_send. cbn [received_by].
    destruct (Nat.eqb_spec (cid x) o) as [E|E].
    + subst o. destruct (Registry.delivers r (cid x)) eqn:Hd.
      * rewrite IH. reflexivity.
      * apply IH.
    + destruct (Registry.delivers r (cid x)); apply IH.
Qed.

Lemma count_sends_send p to n d l :
  count_sends p (Send to n d :: l)
  = if p n then S (count_sends p l) else count_sends p l.
Proof.
  unfold count_sends. cbn [sends filter snd]. destruct (p n); reflexivity.
Qed.

Lemma count_broadcast_fanout r ws m cs : forall k,
  count_sends is_broadcast (fanout r ws m cs k) = List.length (open_others ws cs).
Proof.
  induction cs as [|x cs IH]; intros k; [reflexivity|].
  cbn [fanout]. unfold open_others. cbn [filter].
  destruct (recipient ws x); [|apply IH].
  rewrite count_sends_send. cbn [is_broadcast List.length]. f_equal. apply IH.
Qed.

Lemma count_other_fanout p r ws m cs : forall k,
  (forall t, p (Broadcast m t) = false) ->
  count_sends p (fanout r ws m cs k) = 0.
Proof.
  induction cs as [|x cs IH]; intros k Hp; [reflexivity|].
  cbn [fanout]. destruct (recipient ws x); [|apply IH; assumption].
  rewrite count_sends_send, Hp. apply IH. assumption.
Qed.

Lemma length_sends_fanout r ws m cs : forall k,
  List.length (sends (fanout r ws m cs k)) = List.length (open_others ws cs).
Proof.
  induction cs as [|x cs IH]; intros k; [reflexivity|].
  cbn [fanout]. unfold open_others. cbn [filter].
  destruct (recipient ws x); [|apply IH].
  cbn [sends List.length]. f_equal. apply IH.
Qed.

Lemma timestamps_fanout r ws m cs : forall k,
  timestamps (sends (fanout r ws m cs k))
  = map clock (seq k (List.length (open_others ws cs))).
Proof.
  induction cs as [|x cs IH]; intros k; [reflexivity|].
  cbn [fanout]. unfold open_others. cbn [filter].
  destruct (recipient ws x); [|apply IH].
  cbn [sends timestamps List.length seq map]. f_equal. apply IH.
Qed.

Lemma fanout_only_broadcasts r ws m cs : forall k e,
  In e (fanout r ws m cs k) ->
  exists x t, In x (open_others ws cs) /\
              e = Send (cid x) (Broadcast m t) (Registry.delivers r (cid x)).
Proof.
  induction cs as [|x cs IH]; intros k e H; [destruct H|].
  cbn [fanout] in H. unfold open_others. cbn [filter].
  destruct (recipient ws x).
  - destruct H as [H|H].
    + exists x, (clock k). split; [left; reflexivity|congruence].
    + destruct (IH _ _ H) as [y [t [Hy E]]]. exists y, t. split; [right|]; assumption.
  - apply IH in H. exact H.
Qed.

(** The log of one message that parses. *)
Lemma step_message_parsed s c data m :
  serves s c -> JSON_parse data = Some m ->
  step (Message c data) s =
    (Log (String.append "Received: " data)
       :: Send c (Echo m (clock (date_reads s))) (transmit s c)
       :: fanout (clients s) c m (clients s) (S (date_reads s)),
     with_reads (S (date_reads s) + List.length (open_others c (clients s))) s).
Proof.
  intros [Hx Hh] HP. rewrite step_running by assumption.
  rewrite dispatch_message by assumption.
  rewrite (on_message_parsed _ _ m) by assumption. reflexivity.
Qed.

Lemma step_message_unparsed s c data :
  serves s c -> JSON_parse data = None ->
  step (Message c data) s =
    ([Log (String.append "Received: " data);
      Log "Error parsing message:";
      Send c (Error "Invalid JSON format") (transmit s c)], s).
Proof.
  intros [Hx Hh] HP. rewrite step_running by assumption.
  rewrite dispatch_message by assumption.
  rewrite on_message_unparsed by assumption. reflexivity.
Qed.


(** ** Routing of one inbound message *)

Lemma notifs_to_message_parsed s c data m o :
  serves s c -> JSON_parse data = Some m ->
  notifs_to o (fst (step (Message c data) s))
  = if Nat.eqb c o
    then [Echo m (clock (date_reads s))]
    else notifs_to o (fanout (clients s) c m (clients s) (S (date_reads s))).
Proof.
  intros Hs HP. rewrite (step_message_parsed s c data m Hs HP). cbn [fst].
  change (notifs_to o (Log (String.append "Received: " data)
            :: Send c (Echo m (clock (date_reads s))) (transmit s c)
            :: fanout (clients s) c m (clients s) (S (date_reads s))))
    with (notifs_to o (Send c (Echo m (clock (date_reads s))) (transmit s c)
            :: fanout (clients s) c m (clients s) (S (date_reads s)))).
  rewrite notifs_to_send. destruct (Nat.eqb_spec c o) as [E|E]; [|reflexivity].
  subst o. rewrite notifs_to_fanout_absent; [reflexivity|].
  apply self_not_in_open_others.
Qed.

Lemma count_sends_message_parsed p s c data m :
  serves s c -> JSON_parse data = Some m ->
  count_sends p (fst (step (Message c data) s))
  = count_sends p (Send c (Echo m (clock (date_reads s))) (transmit s c)
                     :: fanout (clients s) c m (clients s) (S (date_reads s))).
Proof.
  intros Hs HP. rewrite (step_message_parsed s c data m Hs HP). reflexivity.
Qed.

(** C1. For a payload that parses to [P], received from connection [c]
    while [N] other members of the set are [OPEN]: the notifications
    handed to [c] are one echo whose [original] is [P] and nothing else
    (so no broadcast goes to [c]); exactly one echo and exactly [N]
    broadcasts are sent in all; each other open connection is handed
    exactly one broadcast whose [message] is [P]; connections that are
    not open are handed nothing; with [N = 0] no broadcast is sent. *)
Theorem echo_once_broadcast_to_each_other s c data P :
  reachable s -> serves s c -> JSON_parse data = Some P ->
  let l := fst (step (Message c data) s) in
  let others := open_others c (clients s) in
  (exists t, notifs_to c l = [Echo P t]) /\
  count_sends is_echo l = 1 /\
  count_sends is_broadcast l = List.length others /\
  List.length (sends l) = S (List.length others) /\
  (forall o, In o (Registry.ids others) ->
             exists t, notifs_to o l = [Broadcast P t]) /\
  (forall o, o <> c -> ~ In o (Registry.ids others) -> notifs_to o l = []) /\
  (others = [] -> count_sends is_broadcast l = 0).
Proof.
  intros R Hs HP l others. subst l others.
  pose proof (reachable_Inv s R) as I.
  assert (Hb : count_sends is_broadcast (fst (step (Message c data) s))
               = List.length (open_others c (clients s))).
  { rewrite (count_sends_message_parsed _ s c data P Hs HP).
    rewrite count_sends_send. cbn [is_broadcast]. apply count_broadcast_fanout. }
  repeat split.
  - exists (clock (date_reads s)).
    rewrite (notifs_to_message_parsed s c data P c Hs HP), Nat.eqb_refl. reflexivity.
  - rewrite (count_sends_message_parsed _ s c data P Hs HP).
    rewrite count_sends_send. cbn [is_echo]. f_equal.
    apply count_other_fanout. reflexivity.
  - exact Hb.
  - rewrite (step_message_parsed s c data P Hs HP). cbn [fst sends List.length].
    f_equal. apply length_sends_fanout.
  - intros o Ho. rewrite (notifs_to_message_parsed s c data P o Hs HP).
    destruct (Nat.eqb_spec c o) as [E|E].
    + subst o. exfalso. exact (self_not_in_open_others _ _ Ho).
    + apply notifs_to_fanout_present; [apply (inv_nodup s I)|exact Ho].
  - intros o Hne Ho. rewrite (notifs_to_message_parsed s c data P o Hs HP).
    destruct (Nat.eqb_spec c o) as [E|E]; [congruence|].
    apply notifs_to_fanout_absent. exact Ho.
  - intros E. rewrite Hb, E. reflexivity.
Qed.

(** C2. For a payload that does not parse: the only [send] is one error
    notification with the message "Invalid JSON format", to the
    connection the payload came from; no echo and no broadcast is sent;
    the state of the process, and with it the [readyState] of the
    connection, is as before. *)
Theorem unparseable_payload_one_error s c data :
  serves s c -> JSON_parse data = None ->
  let l := fst (step (Message c data) s) in
  let s' := snd (step (Message c data) s) in
  sends l = [(c, Error "Invalid JSON format")] /\
  count_sends is_broadcast l = 0 /\
  count_sends is_echo l = 0 /\
  s' = s /\
  serves s' c /\
  (readyState_of s c = OPEN -> readyState_of s' c = OPEN).
Proof.
  intros Hs HP l s'. subst l s'.
  rewrite (step_message_unparsed s c data Hs HP). cbn [fst snd].
  repeat split; try reflexivity; try tauto; apply Hs.
Qed.


Lemma sends_app l1 l2 : sends (l1 ++ l2) = sends l1 ++ sends l2.
Proof.
  induction l1 as [|e l1 IH]; [reflexivity|].
  destruct e; cbn [app sends]; rewrite IH; reflexivity.
Qed.

Lemma notifs_to_app o l1 l2 :
  notifs_to o (l1 ++ l2) = notifs_to o l1 ++ notifs_to o l2.
Proof.
  unfold notifs_to. rewrite sends_app, filter_app, map_app. reflexivity.
Qed.

Lemma sends_fanout_broadcasts r ws m cs : forall k,
  Forall (fun p => is_broadcast (snd p) = true) (sends (fanout r ws m cs k)).
Proof.
  induction cs as [|x cs IH]; intros k; [constructor|].
  cbn [fanout]. destruct (recipient ws x); [|apply IH].
  cbn [sends]. constructor; [reflexivity|apply IH].
Qed.

Lemma serves_with_reads k s c : serves s c -> serves (with_reads k s) c.
Proof. intros H. exact H. Qed.

Lemma serves_after_message s c data :
  serves s c -> serves (snd (step (Message c data) s)) c.
Proof.
  intros Hs. destruct (JSON_parse data) as [m|] eqn:HP.
  - rewrite (step_message_parsed s c data m Hs HP). exact Hs.
  - rewrite (step_message_unparsed s c data Hs HP). exact Hs.
Qed.

(** C3. For a message of [c] that parses, the first [send] of its
    handling is the echo to [c] and all the others are broadcasts, so
    every broadcast of the message comes after its echo; and the
    messages of one connection are handled one after the other in the
    order of their arrival: the log of two messages is the log of the
    first followed by the log of the second, and the replies handed to
    [c] answer the payloads in the order they came. *)
Theorem echo_first_and_arrival_order s c :
  serves s c ->
  (forall data P, JSON_parse data = Some P ->
     precedes (is_echo_to c) is_broadcast_send (fst (step (Message c data) s)) /\
     exists t rest,
       sends (fst (step (Message c data) s)) = (c, Echo P t) :: rest /\
       Forall (fun p => is_broadcast (snd p) = true) rest) /\
  (forall d1 d2,
     fst (run [Message c d1; Message c d2] s)
     = fst (step (Message c d1) s)
       ++ fst (step (Message c d2) (snd (step (Message c d1) s)))) /\
  (forall ds,
     map reply_of (notifs_to c (fst (run (map (Message c) ds) s)))
     = map JSON_parse ds).
Proof.
  intros Hs. split; [|split].
  - intros data P HP. rewrite (step_message_parsed s c data P Hs HP). cbn [fst].
    split.
    + intros l1 x l2 E Hq.
      destruct l1 as [|a [|b l1]]; cbn [app] in E; inversion E; subst.
      * discriminate Hq.
      * discriminate Hq.
      * exists (Send c (Echo P (clock (date_reads s))) (transmit s c)).
        split; [right; left; reflexivity|].
        cbn [is_echo_to is_echo]. rewrite Nat.eqb_refl. reflexivity.
    + exists (clock (date_reads s)).
      exists (sends (fanout (clients s) c P (clients s) (S (date_reads s)))).
      split; [reflexivity|apply sends_fanout_broadcasts].
  - intros d1 d2. rewrite run_cons. cbn [fst]. f_equal.
    rewrite run_cons. cbn [run fst]. apply app_nil_r.
  - intros ds. revert s Hs. induction ds as [|d ds IH]; intros s Hs; [reflexivity|].
    cbn [map]. rewrite run_cons. cbn [fst]. rewrite notifs_to_app, map_app.
    rewrite (IH _ (serves_after_message s c d Hs)).
    destruct (JSON_parse d) as [m|] eqn:HP.
    + rewrite (notifs_to_message_parsed s c d m c Hs HP), Nat.eqb_refl. reflexivity.
    + rewrite (step_message_unparsed s c d Hs HP). cbn [fst].
      unfold notifs_to. cbn [sends filter fst]. rewrite Nat.eqb_refl. reflexivity.
Qed.

(** C4. A broadcast recipient [bad] whose transport fails: the failure
    stays with [bad].  Every other open connection is still handed its
    broadcast, and receives it when its own transport works, wherever it
    stands in the iteration; the sender is handed its echo and nothing
    else, no error notification is sent to anyone, and the handler
    returns normally. *)
Theorem broadcast_failure_is_isolated s c data P bad :
  reachable s -> serves s c -> JSON_parse data = Some P ->
  In bad (Registry.ids (open_others c (clients s))) ->
  transmit s bad = Failed ->
  let l := fst (step (Message c data) s) in
  received_by bad l = [] /\
  (forall o, In o (Registry.ids (open_others c (clients s))) ->
             exists t, notifs_to o l = [Broadcast P t] /\
                       (transmit s o = Delivered -> received_by o l = [Broadcast P t])) /\
  (exists t, notifs_to c l = [Echo P t]) /\
  count_sends is_error l = 0 /\
  snd (dispatch (Message c data) s) = inr tt.
Proof.
  intros R Hs HP Hbad Hf l. subst l.
  pose proof (reachable_Inv s R) as I.
  assert (Hrecv : forall o, o <> c ->
            received_by o (fst (step (Message c data) s))
            = match transmit s o with
              | Delivered => notifs_to o (fst (step (Message c data) s))
              | Failed => []
              end).
  { intros o Hne.
    rewrite (notifs_to_message_parsed s c data P o Hs HP).
    apply Nat.eqb_neq in Hne. rewrite Nat.eqb_sym in Hne. rewrite Hne.
    rewrite (step_message_parsed s c data P Hs HP). cbn [fst received_by].
    destruct (transmit s c); rewrite ?Hne; apply received_by_fanout. }
  assert (Hother : forall o, In o (Registry.ids (open_others c (clients s))) -> o <> c).
  { intros o Ho E. subst o. exact (self_not_in_open_others _ _ Ho). }
  split; [|split; [|split; [|split]]].
  - rewrite (Hrecv bad (Hother bad Hbad)), Hf. reflexivity.
  - intros o Ho.
    destruct (notifs_to_fanout_present (clients s) c P o (clients s)
                (S (date_reads s)) (inv_nodup s I) Ho) as [t Ht].
    exists t.
    assert (Hn : notifs_to o (fst (step (Message c data) s)) = [Broadcast P t]).
    { rewrite (notifs_to_message_parsed s c data P o Hs HP).
      pose proof (Hother o Ho) as Hne. apply Nat.eqb_neq in Hne.
      rewrite Nat.eqb_sym in Hne. rewrite Hne. exact Ht. }
    split; [exact Hn|].
    intros Hd. rewrite (Hrecv o (Hother o Ho)), Hd. exact Hn.
  - exists (clock (date_reads s)).
    rewrite (notifs_to_message_parsed s c data P c Hs HP), Nat.eqb_refl. reflexivity.
  - rewrite (count_sends_message_parsed _ s c data P Hs HP).
    rewrite count_sends_send. cbn [is_error].
    apply count_other_fanout. reflexivity.
  - apply dispatch_returns.
Qed.

Lemma NoDup_map_injective {A B} (f : A -> B) l :
  (forall x y, f x = f y -> x = y) -> NoDup l -> NoDup (map f l).
Proof.
  intros Hf ND. induction ND as [|x l Hn ND IH]; cbn [map]; constructor.
  - intros C. apply in_map_iff in C. destruct C as [y [E Hy]].
    apply Hf in E. subst y. contradiction.
  - exact IH.
Qed.

(** C9. Each notification of one inbound message carries a clock
    reading of its own, taken when that notification is built: the echo
    the next reading, the broadcast to the [j]-th recipient the [j]-th
    reading after it.  Whenever the readings of the clock differ, the
    echo and all the broadcasts of the message carry pairwise different
    timestamps. *)
Theorem timestamps_read_per_notification s c data P :
  serves s c -> JSON_parse data = Some P ->
  let l := fst (step (Message c data) s) in
  let n := List.length (open_others c (clients s)) in
  timestamps (sends l) = map clock (seq (date_reads s) (S n)) /\
  date_reads (snd (step (Message c data) s)) = date_reads s + S n /\
  ((forall i j, clock i = clock j -> i = j) -> NoDup (timestamps (sends l))).
Proof.
  intros Hs HP l n. subst l n.
  assert (E : timestamps (sends (fst (step (Message c data) s)))
              = map clock (seq (date_reads s)
                               (S (List.length (open_others c (clients s)))))).
  { rewrite (step_message_parsed s c data P Hs HP).
    cbn [fst sends timestamps seq map]. f_equal. apply timestamps_fanout. }
  split; [exact E|split].
  - rewrite (step_message_parsed s c data P Hs HP). cbn [snd with_reads date_reads].
    lia.
  - intros Hinj. rewrite E. apply NoDup_map_injective; [exact Hinj|apply seq_NoDup].
Qed.


(** ** What the log of one step can hold *)

(** Case analysis on a step: the process has exited, or the event is
    dispatched and the closed form of its handler applies. *)
Ltac step_cases e s :=
  let Hx := fresh "Hx" in
  destruct (exited s) eqn:Hx;
  [ rewrite (step_exited e s Hx)
  | rewrite (step_running e s Hx);
    let a := fresh "a" in
    let c0 := fresh "c0" in
    let data := fresh "data" in
    let Hl := fresh "Hl" in
    let Hh := fresh "Hh" in
    let HP := fresh "HP" in
    let Hp := fresh "Hp" in
    let Hc := fresh "Hc" in
    let m := fresh "m" in
    destruct e as [a|c0 data|c0|c0|c0|c0| | | |];
    [ destruct (listening s) eqn:Hl;
      [ rewrite (dispatch_connection a s Hl)
      | rewrite (dispatch_connection_refused a s Hl) ]
    | destruct (Registry.has (clients s) c0) eqn:Hh;
      [ rewrite (dispatch_message c0 data s Hh);
        destruct (JSON_parse data) as [m|] eqn:HP;
        [ rewrite (on_message_parsed c0 data m s HP)
        | rewrite (on_message_unparsed c0 data s HP) ]
      | rewrite (dispatch_message_dead c0 data s Hh) ]
    | rewrite (dispatch_error c0 s); destruct (Registry.has (clients s) c0) eqn:Hh
    | rewrite (dispatch_close c0 s); destruct (Registry.has (clients s) c0) eqn:Hh
    | rewrite (dispatch_pong c0 s); destruct (Registry.has (clients s) c0) eqn:Hh
    | rewrite (dispatch_link_down c0 s)
    | rewrite (dispatch_tick s)
    | rewrite (dispatch_server_error s)
    | rewrite (dispatch_sigint s)
    | rewrite (dispatch_server_closed s);
      destruct (close_pending s) eqn:Hp ] ];
  cbn [fst snd].

Lemma In_tick_effects r ts e :
  In e (tick_effects r ts) ->
  exists o rem x, e = Ping o (Registry.delivers r o) /\ In (o, rem) ts /\
                  (rem <= 1)%N /\ Registry.get r o = Some x /\ readyState x = OPEN.
Proof.
  induction ts as [|[o rem] ts IH]; intros H; [destruct H|].
  cbn [tick_effects] in H.
  assert (Hrest : In e (tick_effects r ts) ->
            exists o0 rem0 x, e = Ping o0 (Registry.delivers r o0) /\
              In (o0, rem0) ((o, rem) :: ts) /\ (rem0 <= 1)%N /\
              Registry.get r o0 = Some x /\ readyState x = OPEN).
  { intros H'. destruct (IH H') as [o0 [rem0 [x [E [Hin Hr]]]]].
    exists o0, rem0, x. split; [exact E|]. split; [right; exact Hin|exact Hr]. }
  destruct (N.leb_spec rem 1) as [Hle|Hgt]; [|auto].
  destruct (Registry.get r o) as [x|] eqn:Hg; [|auto].
  destruct (ready_state_eqb (readyState x) OPEN) eqn:Ho; [|auto].
  destruct H as [H|H]; [|auto].
  exists o, rem, x. apply ready_state_eqb_eq in Ho.
  split; [congruence|]. split; [left; reflexivity|]. auto.
Qed.

Lemma In_sigint_log r e :
  In e (Log shutdown_banner :: map (fun x => Close (cid x)) r ++ [ServerClose]) ->
  e = Log shutdown_banner \/ (exists x, In x r /\ e = Close (cid x))
  \/ e = ServerClose.
Proof.
  intros [H|H]; [left; congruence|]. right.
  apply in_app_or in H. destruct H as [H|[H|[]]]; [left|right; congruence].
  apply in_map_iff in H. destruct H as [x [E Hx]]. exists x. split; [assumption|congruence].
Qed.

(** Only the echo, error and broadcast of a message are sent besides the
    welcome, and only to members of the set. *)
Lemma step_sends_members e s to n d :
  In (Send to n d) (fst (step e s)) -> is_welcome n = false ->
  In to (Registry.ids (clients s)).
Proof.
  step_cases e s; intros H Hw;
    try (destruct H as [H|[H|H]]; try discriminate H; try contradiction; fail);
    try contradiction.
  - destruct H as [H|[H|[]]]; [discriminate|]. inversion H; subst. discriminate Hw.
  - destruct H as [H|[H|H]]; [discriminate| |].
    + inversion H; subst. apply has_In. assumption.
    + apply fanout_only_broadcasts in H. destruct H as [x [t [Hxo E]]].
      inversion E; subst. apply in_map. apply In_open_others in Hxo. tauto.
  - destruct H as [H|[H|[H|[]]]]; try discriminate.
    inversion H; subst. apply has_In. assumption.
  - destruct H as [H|[]]. discriminate.
  - destruct H as [H|[]]. discriminate.
  - apply In_tick_effects in H. destruct H as [o [rem [x [E _]]]]. discriminate.
  - destruct H as [H|[]]. discriminate.
  - apply In_sigint_log in H. destruct H as [H|[[x [_ H]]|H]]; discriminate.
Qed.

(** A ping comes from a timer that is due, on a socket that is [OPEN]. *)
Lemma step_ping e s c d :
  In (Ping c d) (fst (step e s)) ->
  e = Tick /\ exited s = false /\ readyState_of s c = OPEN /\
  exists rem, In (c, rem) (intervals s) /\ (rem <= 1)%N.
Proof.
  step_cases e s; intros H;
    try (destruct H as [H|[H|H]]; try discriminate H; try contradiction; fail);
    try contradiction.
  - destruct H as [H|[H|H]]; [discriminate|discriminate|].
    apply fanout_only_broadcasts in H. destruct H as [x [t [Hxo E]]]. discriminate.
  - destruct H as [H|[H|[H|[]]]]; discriminate.
  - destruct H as [H|[]]. discriminate.
  - destruct H as [H|[]]. discriminate.
  - apply In_tick_effects in H. destruct H as [o [rem [x [E [Hin [Hle [Hg Ho]]]]]]].
    inversion E; subst. split; [reflexivity|]. split; [reflexivity|].
    split; [unfold readyState_of; rewrite Hg; exact Ho|].
    exists rem. auto.
  - destruct H as [H|[]]. discriminate.
  - apply In_sigint_log in H. destruct H as [H|[[x [_ H]]|H]]; discriminate.
Qed.

(** The cleanup of [c] runs in the ['close'] of [c], and only there. *)
Lemma step_cleanup e s c :
  In (ClearInterval c) (fst (step e s)) ->
  e = SocketClose c /\ exited s = false /\ Registry.has (clients s) c = true.
Proof.
  step_cases e s; intros H;
    try (destruct H as [H|[H|H]]; try discriminate H; try contradiction; fail);
    try contradiction.
  - destruct H as [H|[H|H]]; [discriminate|discriminate|].
    apply fanout_only_broadcasts in H. destruct H as [x [t [Hxo E]]]. discriminate.
  - destruct H as [H|[H|[H|[]]]]; discriminate.
  - destruct H as [H|[]]. discriminate.
  - destruct H as [H|[H|[]]]; [discriminate|]. inversion H; subst. auto.
  - destruct H as [H|[]]. discriminate.
  - apply In_tick_effects in H. destruct H as [o [rem [x [E _]]]]. discriminate.
  - destruct H as [H|[]]. discriminate.
  - apply In_sigint_log in H. destruct H as [H|[[x [_ H]]|H]]; discriminate.
Qed.

(** The process exits in the callback of [wss.close], at the ['close']
    of the listener, and nowhere else. *)
Lemma step_exit e s code :
  In (Exit code) (fst (step e s)) ->
  e = ServerClosed /\ code = 0 /\ close_pending s = true /\ exited s = false.
Proof.
  step_cases e s; intros H;
    try (destruct H as [H|[H|H]]; try discriminate H; try contradiction; fail);
    try contradiction.
  - destruct H as [H|[H|H]]; [discriminate|discriminate|].
    apply fanout_only_broadcasts in H. destruct H as [x [t [Hxo E]]]. discriminate.
  - destruct H as [H|[H|[H|[]]]]; discriminate.
  - destruct H as [H|[]]. discriminate.
  - destruct H as [H|[]]. discriminate.
  - apply In_tick_effects in H. destruct H as [o [rem [x [E _]]]]. discriminate.
  - destruct H as [H|[]]. discriminate.
  - apply In_sigint_log in H. destruct H as [H|[[x [_ H]]|H]]; discriminate.
  - destruct H as [H|[H|[]]]; [discriminate|]. inversion H; subst. auto.
Qed.


(** ** The welcome comes first *)

Lemma precedes_nil p q : precedes p q [].
Proof. intros l1 x l2 E. destruct l1; discriminate E. Qed.

Lemma precedes_app p q t l :
  precedes p q t ->
  (forall x, In x l -> q x = true -> exists y, In y t /\ p y = true) ->
  precedes p q (t ++ l).
Proof.
  intros Ht Hl l1 x l2 E Hq.
  apply app_eq_app in E. destruct E as [l' [[E1 E2]|[E1 E2]]].
  - destruct l' as [|x' l'].
    + cbn [app] in E2. rewrite app_nil_r in E1. subst t.
      apply (Hl x); [|exact Hq]. rewrite <- E2. left. reflexivity.
    + cbn [app] in E2. inversion E2; subst x'. apply (Ht l1 x l'); assumption.
  - destruct (Hl x) as [y [Hy Hp]]; [rewrite E2; apply in_or_app; right; left; reflexivity
                                    |exact Hq|].
    exists y. split; [|exact Hp]. rewrite E1. apply in_or_app. left. exact Hy.
Qed.

(** A socket in the set after a step was there before, or the step
    accepted it and sent it the welcome. *)
Lemma step_ids e s c :
  Inv s ->
  In c (Registry.ids (clients (snd (step e s)))) ->
  In c (Registry.ids (clients s)) \/
  (c = next_conn s /\
   exists y, In y (fst (step e s)) /\ is_welcome_to c y = true).
Proof.
  intros I. step_cases e s;
    cbn [with_reads with_clients with_intervals clients]; intros H; auto.
  - assert (Hn : ~ In (cid (mkClient (next_conn s) OPEN true)) (Registry.ids (clients s))).
    { cbn [cid]. intros C. apply (inv_fresh s I) in C. lia. }
    rewrite (add_fresh (mkClient (next_conn s) OPEN true) (clients s) Hn) in H.
    unfold Registry.ids in H. rewrite map_app in H.
    apply in_app_or in H. destruct H as [H|[H|[]]]; [left; exact H|right].
    cbn [cid] in H. subst c. split; [reflexivity|].
    eexists. split; [right; left; reflexivity|].
    cbn [is_welcome_to is_welcome]. rewrite Nat.eqb_refl. reflexivity.
  - rewrite ids_set_state in H. auto.
  - apply In_ids_delete in H. tauto.
  - rewrite ids_set_link in H. auto.
  - rewrite ids_close_all in H by apply (inv_nodup s I). auto.
Qed.

(** C10. In every run of the server, whatever else is handed to a
    connection (an echo, a broadcast, an error) comes after the welcome
    handed to it: the welcome is sent within the handling of the
    ['connection'] event itself, the step that puts the socket in the
    set and after which its messages are dispatched. *)
Theorem welcome_precedes_every_other_notification es c :
  precedes (is_welcome_to c) (is_other_notif_to c) (trace es) /\
  (forall a, exited (snd (run es init)) = false ->
             listening (snd (run es init)) = true ->
     let s := snd (run es init) in
     exists d,
       fst (step (Connection a) s)
       = [Log (String.append "New client connected from: " a);
          Send (next_conn s)
               (Welcome "Connected to WebSocket server" (clock (date_reads s))) d]
       /\ ~ In (next_conn s) (Registry.ids (clients s))
       /\ In (next_conn s) (Registry.ids (clients (snd (step (Connection a) s))))).
Proof.
  split.
  - unfold trace.
    pose (P := fun (t : list effect) (s : server) =>
                 Inv s /\
                 (forall c, In c (Registry.ids (clients s)) ->
                            exists y, In y t /\ is_welcome_to c y = true) /\
                 (forall c, precedes (is_welcome_to c) (is_other_notif_to c) t)).
    assert (H : P (fst (run es init)) (snd (run es init))).
    { apply run_invariant; unfold P.
      - split; [apply Inv_init|]. split; [intros ? []|intros; apply precedes_nil].
      - intros t s e [I [Hw Hp]]. split; [apply step_Inv; exact I|]. split.
        + intros c0 Hc0. destruct (step_ids e s c0 I Hc0) as [Hin|[_ [y [Hy Hy']]]].
          * destruct (Hw c0 Hin) as [y [Hy Hy']]. exists y.
            split; [apply in_or_app; left; exact Hy|exact Hy'].
          * exists y. split; [apply in_or_app; right; exact Hy|exact Hy'].
        + intros c0. apply precedes_app; [apply Hp|].
          intros x Hx Hq. destruct x as [to n d| | | | | |]; try discriminate Hq.
          cbn [is_other_notif_to] in Hq. apply andb_true_iff in Hq.
          destruct Hq as [Hto Hn]. apply Nat.eqb_eq in Hto. subst to.
          apply negb_true_iff in Hn.
          apply Hw. apply (step_sends_members e s c0 n d Hx Hn). }
    destruct H as [_ [_ H]]. apply H.
  - intros a Hx Hl. cbv zeta.
    assert (I : Inv (snd (run es init))).
    { apply reachable_Inv. exists es. reflexivity. }
    revert Hx Hl I. generalize (snd (run es init)). intros s Hx Hl I.
    assert (Hn : ~ In (next_conn s) (Registry.ids (clients s))).
    { intros C. apply (inv_fresh s I) in C. lia. }
    rewrite (step_running _ _ Hx), (dispatch_connection a s Hl). cbn [fst snd clients].
    eexists. split; [reflexivity|]. split; [exact Hn|].
    rewrite (add_fresh (mkClient (next_conn s) OPEN true) _ Hn).
    unfold Registry.ids. rewrite map_app. apply in_or_app. right. left. reflexivity.
Qed.


(** ** The ping timer *)

Lemma readyState_of_OPEN s c :
  readyState_of s c = OPEN <->
  exists x, Registry.get (clients s) c = Some x /\ readyState x = OPEN.
Proof.
  unfold readyState_of. destruct (Registry.get (clients s) c) as [x|].
  - split; [intros H; exists x; auto|intros [y [E H]]; congruence].
  - split; [discriminate|intros [y [E H]]; discriminate].
Qed.

Lemma get_app_l r l c x :
  Registry.get r c = Some x -> Registry.get (r ++ l) c = Some x.
Proof.
  unfold Registry.get. induction r as [|y r IH]; intros H; [discriminate|].
  cbn [app find] in *. destruct (Nat.eqb (cid y) c); [exact H|auto].
Qed.

Lemma get_app_fresh r x :
  Registry.has r (cid x) = false -> Registry.get (r ++ [x]) (cid x) = Some x.
Proof.
  unfold Registry.get, Registry.has. induction r as [|y r IH]; intros H.
  - cbn [app find]. rewrite Nat.eqb_refl. reflexivity.
  - cbn [existsb] in H. apply orb_false_iff in H. destruct H as [H1 H2].
    cbn [app find]. rewrite H1. apply IH. exact H2.
Qed.

Lemma get_set_state_other c0 st r c :
  c <> c0 -> Registry.get (Registry.set_state c0 st r) c = Registry.get r c.
Proof.
  intros Hne. unfold Registry.get, Registry.set_state.
  induction r as [|y r IH]; [reflexivity|]. cbn [map find].
  destruct (Nat.eqb_spec (cid y) c0) as [E|E]; cbn [cid].
  - destruct (Nat.eqb_spec (cid y) c) as [E'|E']; [congruence|exact IH].
  - destruct (Nat.eqb (cid y) c); [reflexivity|exact IH].
Qed.

Lemma get_delete_other c0 r c :
  c <> c0 -> Registry.get (Registry.delete c0 r) c = Registry.get r c.
Proof.
  intros Hne. unfold Registry.get, Registry.delete.
  induction r as [|y r IH]; [reflexivity|]. cbn [filter find].
  destruct (Nat.eqb_spec (cid y) c0) as [E|E]; cbn [negb].
  - destruct (Nat.eqb_spec (cid y) c) as [E'|E']; [congruence|exact IH].
  - cbn [find]. destruct (Nat.eqb (cid y) c); [reflexivity|exact IH].
Qed.

Lemma get_set_link c0 up r c :
  match Registry.get (Registry.set_link c0 up r) c, Registry.get r c with
  | Some x, Some y => readyState x = readyState y
  | None, None => True
  | _, _ => False
  end.
Proof.
  unfold Registry.get, Registry.set_link.
  induction r as [|y r IH]; [exact I|]. cbn [map find].
  destruct (Nat.eqb (cid y) c0); cbn [cid];
    destruct (Nat.eqb (cid y) c); try reflexivity; exact IH.
Qed.

Lemma pings_to_app c l1 l2 : pings_to c (l1 ++ l2) = pings_to c l1 + pings_to c l2.
Proof. unfold pings_to. rewrite filter_app, length_app. reflexivity. Qed.

Lemma pings_to_none c l : (forall d, ~ In (Ping c d) l) -> pings_to c l = 0.
Proof.
  unfold pings_to. induction l as [|e l IH]; intros H; [reflexivity|].
  cbn [filter]. destruct (is_ping_to c e) eqn:He.
  - destruct e as [| to d | | | | |]; try discriminate He.
    cbn [is_ping_to] in He. apply Nat.eqb_eq in He. subst to.
    exfalso. apply (H d). left. reflexivity.
  - apply IH. intros d C. apply (H d). right. exact C.
Qed.

Lemma pings_to_tick_absent r0 c ts :
  ~ In c (map fst ts) -> pings_to c (tick_effects r0 ts) = 0.
Proof.
  intros H. apply pings_to_none. intros d C. apply In_tick_effects in C.
  destruct C as [o [rem [x [E [Hin _]]]]]. inversion E; subst.
  apply H. apply (in_map fst) in Hin. exact Hin.
Qed.

Lemma pings_to_tick r0 c x ts : forall r,
  NoDup (map fst ts) -> In (c, r) ts ->
  Registry.get r0 c = Some x -> readyState x = OPEN ->
  pings_to c (tick_effects r0 ts) = if (r <=? 1)%N then 1 else 0.
Proof.
  induction ts as [|[o rem] ts IH]; intros r ND Hin Hg Ho; [destruct Hin|].
  cbn [map fst] in ND. inversion ND as [|? ? Hn ND']; subst.
  cbn [tick_effects]. destruct Hin as [Hin|Hin].
  - inversion Hin; subst o rem. rewrite Hg.
    apply ready_state_eqb_eq in Ho. rewrite Ho.
    destruct (r <=? 1)%N.
    + change (pings_to c (Ping c (Registry.delivers r0 c) :: tick_effects r0 ts))
        with (pings_to c ([Ping c (Registry.delivers r0 c)] ++ tick_effects r0 ts)).
      rewrite pings_to_app, (pings_to_tick_absent r0 c ts Hn).
      unfold pings_to. cbn [filter is_ping_to]. rewrite Nat.eqb_refl. reflexivity.
    + apply pings_to_tick_absent. exact Hn.
  - assert (Hne : o <> c).
    { intros E. subst o. apply Hn. apply (in_map fst) in Hin. exact Hin. }
    assert (Hrest : pings_to c (tick_effects r0 ts) = if (r <=? 1)%N then 1 else 0)
      by (apply IH; assumption).
    destruct (rem <=? 1)%N; [|exact Hrest].
    destruct (Registry.get r0 o) as [y|]; [|exact Hrest].
    destruct (ready_state_eqb (readyState y) OPEN); [|exact Hrest].
    change (pings_to c (Ping o (Registry.delivers r0 o) :: tick_effects r0 ts))
      with (pings_to c ([Ping o (Registry.delivers r0 o)] ++ tick_effects r0 ts)).
    rewrite pings_to_app, Hrest. unfold pings_to. cbn [filter is_ping_to].
    apply Nat.eqb_neq in Hne. rewrite Hne. reflexivity.
Qed.


Lemma step_timer c e s r :
  Inv s -> exited s = false -> readyState_of s c = OPEN ->
  In (c, r) (intervals s) -> closes c e = false ->
  exited (snd (step e s)) = false /\
  readyState_of (snd (step e s)) c = OPEN /\
  In (c, countdown e r) (intervals (snd (step e s))) /\
  pings_to c (fst (step e s)) = fired e r.
Proof.
  intros I Hex Ho Hin Hcl.
  assert (Hp0 : e <> Tick -> pings_to c (fst (step e s)) = 0).
  { intros Hne. apply pings_to_none. intros d C. apply step_ping in C. tauto. }
  assert (ND : NoDup (map fst (intervals s))).
  { rewrite (inv_timers s I). apply (inv_nodup s I). }
  pose proof Ho as Ho'. apply readyState_of_OPEN in Ho'.
  destruct Ho' as [x [Hg Hox]].
  revert Hp0. step_cases e s; intros Hp0;
    try discriminate;
    try (split; [exact Hx|split; [exact Ho|split; [exact Hin|apply Hp0; discriminate]]]).
  - (* Connection *)
    split; [exact Hx|]. split; [|split; [|apply Hp0; discriminate]].
    + apply readyState_of_OPEN. exists x. split; [|exact Hox].
      cbn [clients].
      rewrite add_fresh; [apply get_app_l; exact Hg|].
      cbn [cid]. intros C. apply (inv_fresh s I) in C. lia.
    + cbn [intervals countdown]. apply in_or_app. left. exact Hin.
  - (* SocketError *)
    cbn [closes] in Hcl. apply Nat.eqb_neq in Hcl.
    split; [exact Hx|]. split; [|split; [exact Hin|apply Hp0; discriminate]].
    apply readyState_of_OPEN. exists x. split; [|exact Hox].
    cbn [with_clients clients]. rewrite get_set_state_other by congruence. exact Hg.
  - (* SocketClose *)
    cbn [closes] in Hcl. apply Nat.eqb_neq in Hcl.
    split; [exact Hx|]. split; [|split; [|apply Hp0; discriminate]].
    + apply readyState_of_OPEN. exists x. split; [|exact Hox].
      cbn [with_clients with_intervals clients].
      rewrite get_delete_other by congruence. exact Hg.
    + cbn [with_clients with_intervals intervals countdown].
      apply filter_In. split; [exact Hin|]. cbn [fst].
      apply negb_true_iff. apply Nat.eqb_neq. congruence.
  - (* LinkDown *)
    split; [exact Hx|]. split; [|split; [exact Hin|apply Hp0; discriminate]].
    unfold readyState_of. cbn [with_clients clients].
    pose proof (get_set_link c0 false (clients s) c) as L. rewrite Hg in L.
    destruct (Registry.get (Registry.set_link c0 false (clients s)) c) as [y|];
      [congruence|contradiction].
  - (* Tick *)
    split; [exact Hx|]. split; [exact Ho|]. split.
    + cbn [with_intervals intervals countdown].
      apply in_map_iff. exists (c, r). split; [|exact Hin].
      unfold rearm. cbn [fst snd]. destruct (r <=? 1)%N; reflexivity.
    + cbn [fired]. apply (pings_to_tick (clients s) c x); assumption.
  - (* ServerClosed, after [wss.close]: no member is [OPEN] *)
    exfalso. destruct (inv_shutdown s I Hp) as [_ Hno].
    apply get_Some in Hg. destruct Hg as [Hm _]. exact (Hno x Hm Hox).
Qed.

Lemma ticks_app es1 es2 : ticks (es1 ++ es2) = (ticks es1 + ticks es2)%N.
Proof.
  induction es1 as [|e es1 IH]; [reflexivity|].
  destruct e; cbn [app ticks]; rewrite IH; lia.
Qed.

(** An interval with [r] ms to go, on a socket that stays open, has
    fired once for every full period that passed. *)
Lemma pings_run c es : forall s r,
  Inv s -> exited s = false -> readyState_of s c = OPEN ->
  In (c, r) (intervals s) -> (1 <= r <= PING_INTERVAL_MS)%N ->
  forallb (fun e => negb (closes c e)) es = true ->
  N.of_nat (pings_to c (fst (run es s)))
  = ((ticks es + (PING_INTERVAL_MS - r)) / PING_INTERVAL_MS)%N.
Proof.
  induction es as [|e es IH]; intros s r I Hex Ho Hin Hr Hq.
  - cbn [run fst ticks]. change (pings_to c []) with 0. cbn [N.of_nat].
    symmetry. apply N.div_small. unfold PING_INTERVAL_MS in *. lia.
  - cbn [forallb] in Hq. apply andb_true_iff in Hq. destruct Hq as [Hq1 Hq2].
    apply negb_true_iff in Hq1.
    destruct (step_timer c e s r I Hex Ho Hin Hq1) as [Hex' [Ho' [Hin' Hp]]].
    rewrite run_cons. cbn [fst]. rewrite pings_to_app, Hp, Nat2N.inj_add.
    assert (Hr' : (1 <= countdown e r <= PING_INTERVAL_MS)%N).
    { unfold countdown, PING_INTERVAL_MS in *.
      destruct e; try exact Hr. destruct (N.leb_spec r 1); lia. }
    rewrite (IH _ _ (step_Inv e s I) Hex' Ho' Hin' Hr' Hq2).
    unfold fired, countdown. unfold PING_INTERVAL_MS in *.
    destruct e; cbn [ticks]; try reflexivity.
    destruct (N.leb_spec r 1) as [Hle|Hgt].
    + replace (1 + ticks es + (30000 - r))%N with (ticks es + 1 * 30000)%N by lia.
      rewrite N.div_add by lia.
      replace (ticks es + (30000 - 30000))%N with (ticks es) by lia. lia.
    + replace (1 + ticks es + (30000 - r))%N with (ticks es + (30000 - (r - 1)))%N by lia.
      reflexivity.
Qed.


Lemma step_next_conn e s : next_conn s <= next_conn (snd (step e s)).
Proof.
  step_cases e s;
    cbn [with_reads with_clients with_intervals next_conn]; lia.
Qed.

Lemma readyState_of_member s c :
  readyState_of s c = OPEN -> In c (Registry.ids (clients s)).
Proof.
  intros H. apply readyState_of_OPEN in H. destruct H as [x [Hg _]].
  apply get_Some in Hg. destruct Hg as [Hin E]. subst c. apply in_map. exact Hin.
Qed.

(** A socket that has left the set never comes back, has no interval,
    and is never pinged. *)
Lemma gone_forever c s es :
  Inv s -> c < next_conn s -> ~ In c (Registry.ids (clients s)) ->
  ~ In c (Registry.ids (clients (snd (run es s)))) /\
  ~ In c (map fst (intervals (snd (run es s)))) /\
  pings_to c (fst (run es s)) = 0.
Proof.
  intros I Hlt Hn.
  pose (P := fun (t : list effect) (s' : server) =>
               Inv s' /\ c < next_conn s' /\
               ~ In c (Registry.ids (clients s')) /\
               forall d, ~ In (Ping c d) t).
  assert (H : P (fst (run es s)) (snd (run es s))).
  { apply run_invariant; unfold P.
    - split; [exact I|split; [exact Hlt|split; [exact Hn|intros d []]]].
    - intros t s' e [I' [Hlt' [Hn' Hp']]].
      split; [apply step_Inv; exact I'|]. split; [|split].
      + pose proof (step_next_conn e s'). lia.
      + intros C. apply step_ids in C; [|exact I'].
        destruct C as [C|[C _]]; [contradiction|lia].
      + intros d C. apply in_app_or in C. destruct C as [C|C]; [exact (Hp' d C)|].
        apply step_ping in C. destruct C as [_ [_ [C _]]].
        apply Hn'. apply readyState_of_member. exact C. }
  destruct H as [I' [_ [Hn' Hp']]].
  split; [exact Hn'|]. split.
  - rewrite (inv_timers _ I'). exact Hn'.
  - apply pings_to_none. exact Hp'.
Qed.

Lemma has_iff r r' c :
  (In c (Registry.ids r) <-> In c (Registry.ids r')) ->
  Registry.has r c = Registry.has r' c.
Proof.
  intros H. destruct (Registry.has r c) eqn:E1, (Registry.has r' c) eqn:E2;
    try reflexivity.
  - apply has_In in E1. apply H in E1. apply has_In in E1. congruence.
  - apply has_In in E2. apply H in E2. apply has_In in E2. congruence.
Qed.

Lemma cleanups_of_app c l1 l2 :
  cleanups_of c (l1 ++ l2) = cleanups_of c l1 + cleanups_of c l2.
Proof. unfold cleanups_of. rewrite filter_app, length_app. reflexivity. Qed.

Lemma cleanups_of_none c l : ~ In (ClearInterval c) l -> cleanups_of c l = 0.
Proof.
  unfold cleanups_of. induction l as [|e l IH]; intros H; [reflexivity|].
  cbn [filter]. destruct (is_cleanup_of c e) eqn:He.
  - destruct e as [| | | o | | |]; try discriminate He.
    cbn [is_cleanup_of] in He. apply Nat.eqb_eq in He. subst o.
    exfalso. apply H. left. reflexivity.
  - apply IH. intros C. apply H. right. exact C.
Qed.

(** The cleanup of a connection has run once if the connection was
    accepted and has left the set, and not at all otherwise. *)
Lemma cleanups_exact es c :
  cleanups_of c (fst (run es init))
  = if (c <? next_conn (snd (run es init)))%nat
       && negb (Registry.has (clients (snd (run es init))) c)
    then 1 else 0.
Proof.
  pose (P := fun (t : list effect) (s : server) =>
               Inv s /\
               forall c, cleanups_of c t
                         = if (c <? next_conn s)%nat && negb (Registry.has (clients s) c)
                           then 1 else 0).
  assert (H : P (fst (run es init)) (snd (run es init))).
  { apply run_invariant; unfold P.
    - split; [apply Inv_init|]. intros c'. reflexivity.
    - intros t s e [I IH]. split; [apply step_Inv; exact I|].
      intros c'. rewrite cleanups_of_app, IH.
      assert (H0 : e <> SocketClose c' -> cleanups_of c' (fst (step e s)) = 0).
      { intros Hne. apply cleanups_of_none. intros C. apply step_cleanup in C. tauto. }
      revert H0. step_cases e s; intros H0;
        cbn [with_reads with_clients with_intervals next_conn clients];
        try (rewrite H0 by discriminate; apply Nat.add_0_r);
        try (cbn; apply Nat.add_0_r).
      + (* Connection *)
        rewrite H0 by discriminate. rewrite Nat.add_0_r.
        assert (Hn : ~ In (cid (mkClient (next_conn s) OPEN true))
                          (Registry.ids (clients s))).
        { cbn [cid]. intros C. apply (inv_fresh s I) in C. lia. }
        rewrite (add_fresh _ _ Hn). cbn [cid] in Hn.
        destruct (Nat.eq_dec c' (next_conn s)) as [E|E].
        * subst c'. apply has_false_In in Hn. rewrite Hn.
          assert (Hh : Registry.has (clients s ++ [mkClient (next_conn s) OPEN true])
                                    (next_conn s) = true).
          { apply has_In. unfold Registry.ids. rewrite map_app.
            apply in_or_app. right. left. reflexivity. }
          rewrite Hh. rewrite Nat.ltb_irrefl. cbn. rewrite andb_false_r. reflexivity.
        * assert (Hh : Registry.has (clients s ++ [mkClient (next_conn s) OPEN true]) c'
                       = Registry.has (clients s) c').
          { apply has_iff. unfold Registry.ids. rewrite map_app. split.
            - intros C. apply in_app_or in C. destruct C as [C|[C|[]]]; [exact C|].
              cbn in C. congruence.
            - intros C. apply in_or_app. left. exact C. }
          rewrite Hh.
          assert (Hlt : (c' <? S (next_conn s))%nat = (c' <? next_conn s)%nat).
          { destruct (Nat.ltb_spec c' (S (next_conn s))), (Nat.ltb_spec c' (next_conn s));
              try reflexivity; lia. }
          rewrite Hlt. reflexivity.
      + (* SocketError *)
        rewrite H0 by discriminate. rewrite Nat.add_0_r.
        rewrite (has_iff (Registry.set_state c0 CLOSING (clients s)) (clients s) c');
          [reflexivity|]. rewrite ids_set_state. tauto.
      + (* SocketClose *)
        destruct (Nat.eq_dec c0 c') as [E|E].
        * subst c0. rewrite Hh.
          assert (Hd : Registry.has (Registry.delete c' (clients s)) c' = false).
          { apply has_false_In. intros C. apply In_ids_delete in C. tauto. }
          rewrite Hd.
          assert (Hlt : (c' <? next_conn s)%nat = true).
          { apply Nat.ltb_lt. apply (inv_fresh s I). apply has_In. exact Hh. }
          rewrite Hlt. cbn. rewrite Nat.eqb_refl. reflexivity.
        * rewrite H0 by congruence. rewrite Nat.add_0_r.
          rewrite (has_iff (Registry.delete c0 (clients s)) (clients s) c');
            [reflexivity|]. rewrite In_ids_delete. split; [tauto|].
          intros C. split; [exact C|congruence].
      + (* LinkDown *)
        rewrite H0 by discriminate. rewrite Nat.add_0_r.
        rewrite (has_iff (Registry.set_link c0 false (clients s)) (clients s) c');
          [reflexivity|]. rewrite ids_set_link. tauto.
      + (* SIGINT *)
        rewrite H0 by discriminate. rewrite Nat.add_0_r.
        rewrite (has_iff (close_all (clients s) (clients s)) (clients s) c');
          [reflexivity|]. rewrite ids_close_all by apply (inv_nodup s I). tauto. }
  destruct H as [_ H]. apply H.
Qed.


(** A process that has exited runs nothing. *)
Lemma run_exited es : forall s, exited s = true -> run es s = ([], s).
Proof.
  induction es as [|e es IH]; intros s H; [reflexivity|].
  rewrite run_cons, (step_exited e s H). cbn [fst snd]. rewrite (IH s H). reflexivity.
Qed.

(** The callback of [wss.close] runs at the ['close'] of the listener
    whatever is in the set. *)
Lemma step_server_closed s :
  exited s = false -> close_pending s = true ->
  step ServerClosed s
  = ([Log "Server closed"; Exit 0],
     mkServer (clients s) (intervals s) (next_conn s) (date_reads s)
              (listening s) (close_pending s) true).
Proof.
  intros Hx Hp. rewrite (step_running _ _ Hx), dispatch_server_closed, Hp. reflexivity.
Qed.

(** The interrupt signal, then the ['close'] of the listener before
    any ['close'] of a socket: the handler of the signal and the
    callback of [wss.close] run, the process has exited with the set and
    the intervals as the signal found them, and nothing runs after. *)
Lemma run_signal_then_listener_close s es :
  Inv s -> exited s = false ->
  run (SIGINT :: ServerClosed :: es) s
  = ((Log shutdown_banner :: map (fun x => Close (cid x)) (clients s) ++ [ServerClose])
       ++ [Log "Server closed"; Exit 0],
     mkServer (close_all (clients s) (clients s)) (intervals s)
              (next_conn s) (date_reads s) false true true).
Proof.
  intros I Hx. rewrite run_cons, (step_running _ _ Hx), dispatch_sigint. cbn [fst snd].
  rewrite Hx. rewrite run_cons, step_server_closed by reflexivity. cbn [fst snd clients intervals
    next_conn date_reads listening close_pending].
  rewrite run_exited by reflexivity. cbn [fst snd]. rewrite app_nil_r. reflexivity.
Qed.

Lemma cleanups_of_signal_then_listener_close c r :
  cleanups_of c ((Log shutdown_banner :: map (fun x => Close (cid x)) r ++ [ServerClose])
                   ++ [Log "Server closed"; Exit 0]) = 0.
Proof.
  apply cleanups_of_none. intros C. apply in_app_or in C. destruct C as [C|C].
  - apply In_sigint_log in C. destruct C as [C|[[x [_ C]]|C]]; discriminate C.
  - destruct C as [C|[C|[]]]; discriminate C.
Qed.

Lemma cleanups_of_some c l : 0 < cleanups_of c l -> In (ClearInterval c) l.
Proof.
  unfold cleanups_of. induction l as [|e l IH]; cbn [filter List.length]; [lia|].
  destruct (is_cleanup_of c e) eqn:He.
  - intros _. left. destruct e as [| | | o | | |]; try discriminate He.
    cbn [is_cleanup_of] in He. apply Nat.eqb_eq in He. congruence.
  - intros H. right. apply IH. exact H.
Qed.

Lemma cleanups_at_most_once es c : cleanups_of c (fst (run es init)) <= 1.
Proof.
  rewrite cleanups_exact.
  destruct ((c <? next_conn (snd (run es init)))%nat
            && negb (Registry.has (clients (snd (run es init))) c)); lia.
Qed.

(** The ['close'] of a socket that is in the set, in a process that
    runs: the two handlers, whatever the [readyState] of the socket. *)
Lemma step_close_served s c :
  serves s c ->
  step (SocketClose c) s
  = ([Log "Client disconnected"; ClearInterval c],
     with_intervals (filter (fun t => negb (Nat.eqb (fst t) c)))
                    (with_clients (Registry.delete c) s)).
Proof.
  intros [Hx Hh]. rewrite (step_running _ _ Hx), dispatch_close, Hh. reflexivity.
Qed.

(** The cleanup of [c] has run in a run of the server if and only if a
    ['close'] of [c] was handled in it, that is, delivered while the
    process ran and [c] was in the set. *)
Lemma cleanup_iff_close_handled es c :
  cleanups_of c (fst (run es init)) = 1 <->
  exists es1 es2, es = es1 ++ SocketClose c :: es2 /\ serves (snd (run es1 init)) c.
Proof.
  induction es as [|e es IH] using rev_ind.
  - split; [discriminate|]. intros [es1 [es2 [E _]]]. destruct es1; discriminate E.
  - pose proof (cleanups_at_most_once (es ++ [e]) c) as Hle.
    rewrite run_snoc in *. cbn [fst] in *. rewrite cleanups_of_app in *. split.
    + intros H1.
      destruct (cleanups_of c (fst (step e (snd (run es init))))) as [|k] eqn:Hk.
      * rewrite Nat.add_0_r in H1. apply IH in H1.
        destruct H1 as [es1 [es2 [E Hs]]]. exists es1, (es2 ++ [e]).
        split; [|exact Hs]. rewrite E, <- app_assoc. reflexivity.
      * assert (Hin : In (ClearInterval c) (fst (step e (snd (run es init))))).
        { apply cleanups_of_some. rewrite Hk. lia. }
        apply step_cleanup in Hin. destruct Hin as [E [Hx Hh]].
        exists es, []. split; [rewrite E; reflexivity|split; assumption].
    + intros [es1 [es2 [E Hs]]].
      destruct es2 as [|x es2] using rev_ind.
      * apply app_inj_tail in E. destruct E as [E1 E2]. subst es1 e.
        rewrite (step_close_served _ _ Hs) in *. cbn [fst] in *.
        assert (H1 : cleanups_of c [Log "Client disconnected"; ClearInterval c] = 1).
        { unfold cleanups_of. cbn [filter is_cleanup_of]. rewrite Nat.eqb_refl.
          reflexivity. }
        rewrite H1 in *. lia.
      * clear IHes2. rewrite app_comm_cons, app_assoc in E.
        apply app_inj_tail in E. destruct E as [E1 E2]. subst e.
        assert (H1 : cleanups_of c (fst (run es init)) = 1).
        { apply IH. exists es1, es2. split; assumption. }
        lia.
Qed.

Lemma get_set_state_same c st r x :
  Registry.get r c = Some x ->
  exists y, Registry.get (Registry.set_state c st r) c = Some y /\ readyState y = st.
Proof.
  unfold Registry.get, Registry.set_state.
  induction r as [|a r IH]; intros H; [discriminate|]. cbn [map find] in *.
  destruct (Nat.eqb (cid a) c) eqn:E.
  - cbn [cid]. rewrite E. eexists. split; reflexivity.
  - rewrite E. apply IH. exact H.
Qed.

(** An error on a socket, or the interrupt signal, begins the closing of
    a member of the set and no more: the socket stays in the set, now
    [CLOSING], and its cleanup is left to its ['close']. *)
Lemma step_begins_close s c e :
  Inv s -> serves s c -> e = SocketError c \/ e = SIGINT ->
  serves (snd (step e s)) c /\
  readyState_of (snd (step e s)) c = CLOSING /\
  cleanups_of c (fst (step e s)) = 0.
Proof.
  intros I [Hx Hh] He.
  assert (H0 : cleanups_of c (fst (step e s)) = 0).
  { apply cleanups_of_none. intros C. apply step_cleanup in C.
    destruct C as [C _]. destruct He; congruence. }
  assert (Hg : exists x, Registry.get (clients s) c = Some x).
  { destruct (Registry.get (clients s) c) as [x|] eqn:G; [exists x; reflexivity|].
    apply get_None in G. apply has_In in Hh. contradiction. }
  destruct Hg as [x Hg].
  destruct He as [He|He]; subst e; rewrite (step_running _ _ Hx).
  - rewrite dispatch_error, Hh. cbn [fst snd].
    split; [|split; [|rewrite (step_running _ _ Hx), dispatch_error, Hh in H0; exact H0]].
    + split; [exact Hx|]. cbn [with_clients clients].
      rewrite (has_iff _ (clients s)); [exact Hh|]. rewrite ids_set_state. tauto.
    + unfold readyState_of. cbn [with_clients clients].
      destruct (get_set_state_same c CLOSING (clients s) x Hg) as [y [Gy Sy]].
      rewrite Gy. exact Sy.
  - rewrite dispatch_sigint. cbn [fst snd].
    pose proof (step_Inv SIGINT s I) as I1.
    rewrite (step_running _ _ Hx), dispatch_sigint in I1, H0. cbn [fst snd] in I1, H0.
    assert (Hh1 : Registry.has (close_all (clients s) (clients s)) c = true).
    { rewrite (has_iff _ (clients s)); [exact Hh|].
      rewrite ids_close_all by apply (inv_nodup s I). tauto. }
    split; [split; [exact Hx|exact Hh1]|]. split; [|exact H0].
    unfold readyState_of. cbn [clients].
    destruct (Registry.get (close_all (clients s) (clients s)) c) as [y|] eqn:G.
    + apply get_Some in G. destruct G as [Hy _].
      destruct (inv_state _ I1 y Hy) as [Ho|Hc]; [|exact Hc].
      exfalso. destruct (inv_shutdown _ I1 eq_refl) as [_ Hno]. exact (Hno y Hy Ho).
    + apply get_None in G. apply has_In in Hh1. contradiction.
Qed.


(** C5, and the input where it fails.  The ping timer of a connection
    has a period of 30000 ms (30 s): from the moment the connection is
    accepted, and for as long as no event closes it, the number of pings
    sent to it is the number of full periods that have passed.  A ping
    is sent only by a timer firing, and only when the [readyState] of
    its socket is [OPEN].  The ['close'] of a connection clears its
    interval: from then on the connection has no interval, is not in the
    set, and is never pinged; a second ['close'] for the same socket
    finds nothing to do.  An error or the interrupt signal only begins
    the closing: the socket stays in the set, [CLOSING], with its
    cleanup left to its ['close'].  The cleanup of a connection runs at
    most once in a run, and it runs exactly when the ['close'] of the
    socket is handled, that is, delivered while the process still runs.
    That is where a close begun by the interrupt signal differs from one
    begun by the peer or by an error: the signal also arms the exit, and
    when the ['close'] of the listener is handled before the ['close']
    of the socket, the process has exited and the cleanup of the
    connection never runs, though [close()] was called on it; its
    interval is still live and it is still in the set. *)
Theorem ping_timer_period_guard_and_single_cleanup :
  PING_INTERVAL_MS = 30000%N /\
  (forall s a es,
     reachable s -> exited s = false -> listening s = true ->
     forallb (fun e => negb (closes (next_conn s) e)) es = true ->
     N.of_nat (pings_to (next_conn s) (fst (run es (snd (step (Connection a) s)))))
     = (ticks es / PING_INTERVAL_MS)%N) /\
  (forall s e c d,
     In (Ping c d) (fst (step e s)) -> e = Tick /\ readyState_of s c = OPEN) /\
  (forall s c es,
     reachable s -> serves s c ->
     let s1 := snd (step (SocketClose c) s) in
     In (ClearInterval c) (fst (step (SocketClose c) s)) /\
     ~ In c (map fst (intervals (snd (run es s1)))) /\
     ~ In c (Registry.ids (clients (snd (run es s1)))) /\
     pings_to c (fst (run es s1)) = 0 /\
     fst (step (SocketClose c) s1) = []) /\
  (forall es c,
     cleanups_of c (trace es)
     = if (c <? next_conn (snd (run es init)))%nat
          && negb (Registry.has (clients (snd (run es init))) c)
       then 1 else 0) /\
  (forall s c e,
     reachable s -> serves s c -> e = SocketError c \/ e = SIGINT ->
     serves (snd (step e s)) c /\
     readyState_of (snd (step e s)) c = CLOSING /\
     cleanups_of c (fst (step e s)) = 0) /\
  (forall s c,
     reachable s -> serves s c ->
     cleanups_of c (fst (step (SocketClose c) s)) = 1) /\
  (forall es c, cleanups_of c (trace es) <= 1) /\
  (forall es c,
     cleanups_of c (trace es) = 1 <->
     exists es1 es2, es = es1 ++ SocketClose c :: es2 /\
                     serves (snd (run es1 init)) c) /\
  (forall s c es,
     reachable s -> serves s c ->
     In (Close c) (fst (run (SIGINT :: ServerClosed :: es) s)) /\
     cleanups_of c (fst (run (SIGINT :: ServerClosed :: es) s)) = 0 /\
     exited (snd (run (SIGINT :: ServerClosed :: es) s)) = true /\
     In c (map fst (intervals (snd (run (SIGINT :: ServerClosed :: es) s)))) /\
     In c (Registry.ids (clients (snd (run (SIGINT :: ServerClosed :: es) s))))).
Proof.
  split; [reflexivity|].
  split; [|split; [|split; [|split; [|split; [|split; [|split; [|split]]]]]]].
  - intros s a es R Hx Hl Hq.
    pose proof (reachable_Inv s R) as I.
    assert (Hn : ~ In (next_conn s) (Registry.ids (clients s))).
    { intros C. apply (inv_fresh s I) in C. lia. }
    assert (E : snd (step (Connection a) s)
                = mkServer (clients s ++ [mkClient (next_conn s) OPEN true])
                           (intervals s ++ [(next_conn s, PING_INTERVAL_MS)])
                           (S (next_conn s)) (S (date_reads s))
                           (listening s) (close_pending s) (exited s)).
    { rewrite (step_running _ _ Hx), (dispatch_connection a s Hl). cbn [fst snd].
      rewrite (add_fresh (mkClient (next_conn s) OPEN true) (clients s) Hn).
      reflexivity. }
    rewrite (pings_run (next_conn s) es (snd (step (Connection a) s)) PING_INTERVAL_MS).
    + rewrite N.sub_diag, N.add_0_r. reflexivity.
    + apply step_Inv. exact I.
    + rewrite E. exact Hx.
    + rewrite E. unfold readyState_of. cbn [clients].
      assert (G : Registry.get (clients s ++ [mkClient (next_conn s) OPEN true])
                               (next_conn s)
                  = Some (mkClient (next_conn s) OPEN true)).
      { apply (get_app_fresh (clients s) (mkClient (next_conn s) OPEN true)).
        apply has_false_In. exact Hn. }
      rewrite G. reflexivity.
    + rewrite E. cbn [intervals]. apply in_or_app. right. left. reflexivity.
    + unfold PING_INTERVAL_MS. lia.
    + exact Hq.
  - intros s e c d H. apply step_ping in H. tauto.
  - intros s c es R Hs s1. pose proof Hs as [Hx Hh].
    pose proof (reachable_Inv s R) as I.
    pose proof (step_close_served s c Hs) as E.
    assert (I1 : Inv s1) by (apply step_Inv; exact I).
    assert (Hlt : c < next_conn s1).
    { pose proof (step_next_conn (SocketClose c) s). fold s1 in H.
      apply has_In in Hh. apply (inv_fresh s I) in Hh. lia. }
    assert (Hn : ~ In c (Registry.ids (clients s1))).
    { unfold s1. rewrite E. cbn [snd with_intervals with_clients clients].
      intros C. apply In_ids_delete in C. tauto. }
    destruct (gone_forever c s1 es I1 Hlt Hn) as [G1 [G2 G3]].
    split; [rewrite E; right; left; reflexivity|].
    split; [exact G2|]. split; [exact G1|]. split; [exact G3|].
    apply has_false_In in Hn.
    destruct (exited s1) eqn:Hx1.
    + rewrite (step_exited _ _ Hx1). reflexivity.
    + rewrite (step_running _ _ Hx1), dispatch_close, Hn. reflexivity.
  - intros es c. apply cleanups_exact.
  - intros s c e R Hs He. apply step_begins_close; [apply reachable_Inv; exact R| |];
      assumption.
  - intros s c _ Hs. rewrite (step_close_served s c Hs). unfold cleanups_of.
    cbn [fst filter is_cleanup_of]. rewrite Nat.eqb_refl. reflexivity.
  - intros es c. apply cleanups_at_most_once.
  - intros es c. apply cleanup_iff_close_handled.
  - intros s c es R [Hx Hh]. pose proof (reachable_Inv s R) as I.
    rewrite (run_signal_then_listener_close s es I Hx). cbn [fst snd clients intervals].
    apply has_In in Hh.
    split; [|split; [apply cleanups_of_signal_then_listener_close|split; [reflexivity|split]]].
    + apply in_or_app. left. right. apply in_or_app. left.
      unfold Registry.ids in Hh. apply in_map_iff in Hh. destruct Hh as [x [E Hin]].
      apply in_map_iff. exists x. split; [congruence|exact Hin].
    + rewrite (inv_timers s I). exact Hh.
    + rewrite ids_close_all by apply (inv_nodup s I). exact Hh.
Qed.


(** ** Shutdown *)

Lemma step_listening e s :
  listening s = false -> listening (snd (step e s)) = false.
Proof.
  intros H. revert H. step_cases e s;
    cbn [with_reads with_clients with_intervals listening]; intros H;
    try exact H; try reflexivity; congruence.
Qed.

Lemma step_close_pending e s :
  close_pending s = true -> close_pending (snd (step e s)) = true.
Proof.
  intros H. revert H. step_cases e s;
    cbn [with_reads with_clients with_intervals close_pending]; intros H;
    try exact H; try reflexivity; congruence.
Qed.

Lemma run_shutting_down es : forall s,
  listening s = false -> close_pending s = true ->
  listening (snd (run es s)) = false /\ close_pending (snd (run es s)) = true.
Proof.
  induction es as [|e es IH]; intros s Hl Hp; [split; assumption|].
  rewrite run_cons. cbn [snd]. apply IH.
  - apply step_listening. exact Hl.
  - apply step_close_pending. exact Hp.
Qed.

(** C7, and the input where it fails.  On the interrupt signal the
    handler calls [close()] on every member of the set, in the order of
    the set, and after that [wss.close], the one call that stops the
    listener; nothing else is done, and the handler does not exit.
    Afterwards every member is [CLOSING], the set has the members it
    had, and the listener accepts no connection any more.  The process
    exits in the callback of [wss.close] and nowhere else.  But the
    callback waits for the ['close'] of the listener only: when that
    event is handled it logs "Server closed" and exits with code 0
    whatever is still in the set, and once it has run no handler runs
    any more.  So when the ['close'] of the listener is handled before
    the ['close'] of a socket that the signal found in the set, the exit
    is not preceded by the cleanup of that connection, which never runs:
    the connection stays in the set with its interval. *)
Theorem shutdown_closes_all_then_listener_then_exits s :
  reachable s -> exited s = false ->
  let l := fst (step SIGINT s) in
  let s1 := snd (step SIGINT s) in
  l = Log shutdown_banner
        :: map (fun x => Close (cid x)) (clients s) ++ [ServerClose] /\
  Registry.ids (clients s1) = Registry.ids (clients s) /\
  (forall x, In x (clients s1) -> readyState x = CLOSING) /\
  listening s1 = false /\
  (forall es a, step (Connection a) (snd (run es s1)) = ([], snd (run es s1))) /\
  exited s1 = false /\
  (forall es e code, In (Exit code) (fst (step e (snd (run es s1)))) ->
                     e = ServerClosed /\ code = 0) /\
  (forall es, exited (snd (run es s1)) = false ->
              let s2 := snd (run es s1) in
              step ServerClosed s2
              = ([Log "Server closed"; Exit 0],
                 mkServer (clients s2) (intervals s2) (next_conn s2) (date_reads s2)
                          (listening s2) (close_pending s2) true)) /\
  (forall es es' c, exited (snd (run es s1)) = false ->
              let s3 := snd (step ServerClosed (snd (run es s1))) in
              run es' s3 = ([], s3) /\
              (In c (Registry.ids (clients (snd (run es s1)))) ->
               In c (Registry.ids (clients (snd (run es' s3)))) /\
               In c (map fst (intervals (snd (run es' s3)))) /\
               cleanups_of c (fst (run es' s3)) = 0)) /\
  (forall es c, In c (Registry.ids (clients s)) ->
              ~ precedes (is_cleanup_of c) is_exit
                         (fst (run (SIGINT :: ServerClosed :: es) s))).
Proof.
  intros R Hx l s1.
  pose proof (reachable_Inv s R) as I.
  assert (E : step SIGINT s
              = (Log shutdown_banner
                   :: map (fun x => Close (cid x)) (clients s) ++ [ServerClose],
                 mkServer (close_all (clients s) (clients s)) (intervals s)
                          (next_conn s) (date_reads s) false true (exited s))).
  { rewrite (step_running _ _ Hx), dispatch_sigint. reflexivity. }
  assert (I1 : Inv s1) by (apply step_Inv; exact I).
  assert (Hl1 : listening s1 = false) by (unfold s1; rewrite E; reflexivity).
  assert (Hp1 : close_pending s1 = true) by (unfold s1; rewrite E; reflexivity).
  assert (Hids : Registry.ids (clients s1) = Registry.ids (clients s)).
  { unfold s1. rewrite E. cbn [snd clients]. apply ids_close_all. apply (inv_nodup s I). }
  assert (Hcb : forall es, exited (snd (run es s1)) = false ->
            step ServerClosed (snd (run es s1))
            = ([Log "Server closed"; Exit 0],
               mkServer (clients (snd (run es s1))) (intervals (snd (run es s1)))
                        (next_conn (snd (run es s1))) (date_reads (snd (run es s1)))
                        (listening (snd (run es s1)))
                        (close_pending (snd (run es s1))) true)).
  { intros es Hx2. destruct (run_shutting_down es s1 Hl1 Hp1) as [_ Hp2].
    apply step_server_closed; assumption. }
  split; [unfold l; rewrite E; reflexivity|].
  split; [exact Hids|].
  split; [|split; [exact Hl1|split; [|split; [|split; [|split; [|split]]]]]].
  - intros x Hin. destruct (inv_state s1 I1 x Hin) as [Ho|Hc]; [|exact Hc].
    exfalso. destruct (inv_shutdown s1 I1 Hp1) as [_ Hno]. exact (Hno x Hin Ho).
  - intros es a. destruct (run_shutting_down es s1 Hl1 Hp1) as [Hl2 _].
    destruct (exited (snd (run es s1))) eqn:Hx2.
    + apply step_exited. exact Hx2.
    + rewrite (step_running _ _ Hx2), (dispatch_connection_refused a _ Hl2). reflexivity.
  - unfold s1. rewrite E. exact Hx.
  - intros es e code H. apply step_exit in H. tauto.
  - intros es Hx2 s2. apply Hcb. exact Hx2.
  - intros es es' c Hx2 s3.
    assert (Hx3 : exited s3 = true) by (unfold s3; rewrite (Hcb es Hx2); reflexivity).
    rewrite (run_exited es' s3 Hx3). split; [reflexivity|].
    intros Hin. cbn [fst snd]. unfold s3. rewrite (Hcb es Hx2). cbn [snd clients intervals].
    split; [exact Hin|]. split; [|reflexivity].
    pose proof (run_Inv es s1 I1) as I2. rewrite (inv_timers _ I2). exact Hin.
  - intros es c _ H. rewrite (run_signal_then_listener_close s es I Hx) in H.
    cbn [fst] in H.
    destruct (H ((Log shutdown_banner
                    :: map (fun x => Close (cid x)) (clients s) ++ [ServerClose])
                   ++ [Log "Server closed"])
                (Exit 0) []) as [y [Hin Hy]].
    + rewrite <- app_assoc. reflexivity.
    + reflexivity.
    + apply in_app_or in Hin. destruct Hin as [Hin|[Hin|[]]].
      * apply In_sigint_log in Hin.
        destruct Hin as [E0|[[x [_ E0]]|E0]]; subst y; discriminate Hy.
      * subst y. discriminate Hy.
Qed.

(** ** Sends on sockets that are not open *)

(** The welcome, the broadcasts and the pings go to sockets that are
    [OPEN] at the call. *)
Lemma guarded_calls_find_socket_open s e :
  reachable s ->
  (forall to n d, In (Send to n d) (fst (step e s)) -> is_broadcast n = true ->
                  readyState_of s to = OPEN) /\
  (forall to d, In (Ping to d) (fst (step e s)) -> readyState_of s to = OPEN) /\
  (forall to n d, In (Send to n d) (fst (step e s)) -> is_welcome n = true ->
                  readyState_of (snd (step e s)) to = OPEN).
Proof.
  intros R. pose proof (reachable_Inv s R) as I. split; [|split].
  - step_cases e s; intros to n d H Hb;
      try (destruct H as [H|[H|H]]; try discriminate H; try contradiction; fail);
      try contradiction.
    + destruct H as [H|[H|[]]]; [discriminate|]. inversion H; subst. discriminate Hb.
    + destruct H as [H|[H|H]]; [discriminate| |].
      * inversion H; subst. discriminate Hb.
      * apply fanout_only_broadcasts in H. destruct H as [x [t [Hxo E]]].
        inversion E; subst. apply In_open_others in Hxo.
        destruct Hxo as [Hin [_ Ho]]. unfold readyState_of.
        rewrite (get_member _ _ (inv_nodup s I) Hin). exact Ho.
    + destruct H as [H|[H|[H|[]]]]; try discriminate.
      inversion H; subst. discriminate Hb.
    + destruct H as [H|[]]. discriminate.
    + destruct H as [H|[]]. discriminate.
    + apply In_tick_effects in H. destruct H as [o [rem [x [E _]]]]. discriminate.
    + destruct H as [H|[]]. discriminate.
    + apply In_sigint_log in H. destruct H as [H|[[x [_ H]]|H]]; discriminate.
  - intros to d H. apply step_ping in H. tauto.
  - step_cases e s; intros to n d H Hb;
      try (destruct H as [H|[H|H]]; try discriminate H; try contradiction; fail);
      try contradiction.
    + destruct H as [H|[H|[]]]; [discriminate|]. inversion H; subst.
      unfold readyState_of. cbn [clients].
      assert (Hn : ~ In (next_conn s) (Registry.ids (clients s))).
      { intros C. apply (inv_fresh s I) in C. lia. }
      rewrite (add_fresh (mkClient (next_conn s) OPEN true) _ Hn).
      pose proof (get_app_fresh (clients s) (mkClient (next_conn s) OPEN true)) as G.
      cbn [cid] in G. rewrite G; [reflexivity|]. apply has_false_In. exact Hn.
    + destruct H as [H|[H|H]]; [discriminate| |].
      * inversion H; subst. discriminate Hb.
      * apply fanout_only_broadcasts in H. destruct H as [x [t [Hxo E]]].
        inversion E; subst. discriminate Hb.
    + destruct H as [H|[H|[H|[]]]]; try discriminate.
      inversion H; subst. discriminate Hb.
    + destruct H as [H|[]]. discriminate.
    + destruct H as [H|[]]. discriminate.
    + apply In_tick_effects in H. destruct H as [o [rem [x [E _]]]]. discriminate.
    + destruct H as [H|[]]. discriminate.
    + apply In_sigint_log in H. destruct H as [H|[[x [_ H]]|H]]; discriminate.
Qed.

(** C6, at the input where it fails.  One connection is accepted, the
    interrupt signal makes its socket [CLOSING], and a payload of that
    connection, sent before its peer saw the close frame, arrives: the
    message handler hands the echo to [send] on the socket that is no
    longer [OPEN].  The broadcast loop and the ping timer test
    [readyState] before they send; the echo and the error reply do not. *)
Theorem echo_is_sent_on_a_closing_socket a data P :
  JSON_parse data = Some P ->
  let s := snd (run [Connection a; SIGINT] init) in
  serves s 0 /\
  readyState_of s 0 = CLOSING /\
  fst (step (Message 0 data) s)
  = [Log (String.append "Received: " data); Send 0 (Echo P (clock 1)) Failed].
Proof.
  intros HP s.
  assert (Hs : serves s 0) by (split; reflexivity).
  split; [exact Hs|]. split; [reflexivity|].
  rewrite (step_message_parsed s 0 data P Hs HP). reflexivity.
Qed.

(** ** Further properties of the server *)

(** X1. In every state the process can reach, the live ping intervals
    are those of the members of [wss.clients], one each and in the same
    order: no member is without its timer and no timer outlives its
    socket.  Every interval has between 1 and 30000 ms to go, and every
    member is [OPEN] or [CLOSING]. *)
Theorem one_interval_per_member s :
  reachable s ->
  map fst (intervals s) = Registry.ids (clients s) /\
  NoDup (map fst (intervals s)) /\
  (forall o r, In (o, r) (intervals s) -> (1 <= r <= PING_INTERVAL_MS)%N) /\
  (forall x, In x (clients s) -> readyState x = OPEN \/ readyState x = CLOSING).
Proof.
  intros R. pose proof (reachable_Inv s R) as I.
  split; [apply (inv_timers s I)|]. split; [|split].
  - rewrite (inv_timers s I). apply (inv_nodup s I).
  - apply (inv_due s I).
  - apply (inv_state s I).
Qed.

Lemma step_shutdown_effect e s x :
  In x (fst (step e s)) -> is_shutdown_effect x = true ->
  e = SIGINT \/ (e = ServerClosed /\ close_pending s = true).
Proof.
  step_cases e s; intros H Hq;
    try (destruct H as [H|[H|H]]; try (subst x; discriminate Hq); try contradiction; fail);
    try contradiction; auto.
  - destruct H as [H|[H|H]]; [subst x; discriminate Hq|subst x; discriminate Hq|].
    apply fanout_only_broadcasts in H. destruct H as [y [t [_ E]]].
    subst x. discriminate Hq.
  - destruct H as [H|[H|[H|[]]]]; subst x; discriminate Hq.
  - destruct H as [H|[]]. subst x. discriminate Hq.
  - destruct H as [H|[]]. subst x. discriminate Hq.
  - apply In_tick_effects in H. destruct H as [o [rem [y [E _]]]].
    subst x. discriminate Hq.
  - destruct H as [H|[]]. subst x. discriminate Hq.
Qed.

Lemma step_keeps_running e s :
  exited s = false -> listening s = true -> close_pending s = false ->
  is_SIGINT e = false ->
  exited (snd (step e s)) = false /\ listening (snd (step e s)) = true /\
  close_pending (snd (step e s)) = false.
Proof.
  intros Hex Hl Hp Hs. revert Hl Hp.
  step_cases e s;
    cbn [with_reads with_clients with_intervals exited listening close_pending];
    intros Hl1 Hp1; try discriminate; auto.
Qed.

Lemma run_keeps_running es : forall s,
  exited s = false -> listening s = true -> close_pending s = false ->
  forallb (fun e => negb (is_SIGINT e)) es = true ->
  exited (snd (run es s)) = false /\
  listening (snd (run es s)) = true /\
  close_pending (snd (run es s)) = false /\
  (forall x, In x (fst (run es s)) -> is_shutdown_effect x = false).
Proof.
  induction es as [|e es IH]; intros s Hex Hl Hp Hq.
  - cbn [run fst snd]. split; [exact Hex|]. split; [exact Hl|]. split; [exact Hp|].
    intros x [].
  - cbn [forallb] in Hq. apply andb_true_iff in Hq. destruct Hq as [Hq1 Hq2].
    apply negb_true_iff in Hq1.
    destruct (step_keeps_running e s Hex Hl Hp Hq1) as [Hex' [Hl' Hp']].
    rewrite run_cons. cbn [fst snd].
    destruct (IH _ Hex' Hl' Hp' Hq2) as [H1 [H2 [H3 H4]]].
    split; [exact H1|]. split; [exact H2|]. split; [exact H3|].
    intros x Hx. apply in_app_or in Hx. destruct Hx as [Hx|Hx]; [|apply H4; exact Hx].
    destruct (is_shutdown_effect x) eqn:Hs; [|reflexivity].
    destruct (step_shutdown_effect e s x Hx Hs) as [E|[E Hp2]].
    + subst e. discriminate Hq1.
    + congruence.
Qed.

(** X2. Nothing but the interrupt signal makes the server shut anything
    down: in a run without [SIGINT] the server never calls [close()] on a
    socket, never closes the listener and never exits, whatever the
    clients send, however many pings go unanswered and whatever errors
    are reported; at the end it still runs and still accepts
    connections. *)
Theorem no_shutdown_without_SIGINT es :
  forallb (fun e => negb (is_SIGINT e)) es = true ->
  exited (snd (run es init)) = false /\
  listening (snd (run es init)) = true /\
  close_pending (snd (run es init)) = false /\
  (forall x, In x (trace es) -> is_shutdown_effect x = false).
Proof.
  intros Hq. apply run_keeps_running; [reflexivity|reflexivity|reflexivity|exact Hq].
Qed.

Lemma timestamps_app l1 l2 :
  timestamps (l1 ++ l2) = timestamps l1 ++ timestamps l2.
Proof.
  induction l1 as [|[c n] l1 IH]; [reflexivity|].
  destruct n; cbn [app timestamps]; rewrite IH; reflexivity.
Qed.

Lemma sends_tick_effects r ts : sends (tick_effects r ts) = [].
Proof.
  induction ts as [|[o rem] ts IH]; [reflexivity|]. cbn [tick_effects].
  destruct (rem <=? 1)%N; [|exact IH].
  destruct (Registry.get r o) as [x|]; [|exact IH].
  destruct (ready_state_eqb (readyState x) OPEN); [|exact IH].
  cbn [sends]. exact IH.
Qed.

Lemma sends_close_calls (r : Registry.t) l :
  sends (map (fun x => Close (cid x)) r ++ l) = sends l.
Proof. induction r as [|x r IH]; [reflexivity|]. cbn [map app sends]. exact IH. Qed.

(** Each step reads the clock once for every timestamp it sends. *)
Lemma step_timestamps e s :
  exists k,
    date_reads (snd (step e s)) = date_reads s + k /\
    timestamps (sends (fst (step e s))) = map clock (seq (date_reads s) k).
Proof.
  step_cases e s;
    cbn [with_reads with_clients with_intervals date_reads];
    try (exists 0; split; [symmetry; apply Nat.add_0_r|reflexivity]).
  - exists 1. split; [lia|reflexivity].
  - exists (S (List.length (open_others c0 (clients s)))). split; [lia|].
    cbn [sends timestamps seq map]. f_equal. apply timestamps_fanout.
  - exists 0. split; [symmetry; apply Nat.add_0_r|].
    rewrite sends_tick_effects. reflexivity.
  - exists 0. split; [symmetry; apply Nat.add_0_r|].
    cbn [sends]. rewrite sends_close_calls. reflexivity.
Qed.

(** X3. Over a whole run, the timestamps of the notifications sent are,
    in the order of the sends, the successive readings of the clock from
    the first on: every [new Date()] the server evaluates ends up in
    exactly one notification, and no reading is used twice. *)
Theorem timestamps_are_the_clock_readings es :
  timestamps (sends (trace es))
  = map clock (seq 0 (date_reads (snd (run es init)))).
Proof.
  unfold trace.
  apply (run_invariant
           (fun t s => timestamps (sends t) = map clock (seq 0 (date_reads s)))).
  - reflexivity.
  - intros t s e IH. destruct (step_timestamps e s) as [k [Hk Ht]].
    rewrite sends_app, timestamps_app, IH, Ht, Hk, seq_app, map_app. reflexivity.
Qed.


Lemma sorted_filter (f : nat -> bool) l :
  StronglySorted lt l -> StronglySorted lt (filter f l).
Proof.
  induction 1 as [|a l Hs IH Hf]; [constructor|]. cbn [filter].
  destruct (f a); [|exact IH]. constructor; [exact IH|].
  apply Forall_forall. intros x Hx. apply filter_In in Hx.
  rewrite Forall_forall in Hf. apply Hf. tauto.
Qed.

Lemma sorted_snoc l n :
  StronglySorted lt l -> (forall x, In x l -> x < n) -> StronglySorted lt (l ++ [n]).
Proof.
  induction 1 as [|a l Hs IH Hf]; intros Hn.
  - cbn. constructor; [constructor|constructor].
  - cbn [app]. constructor.
    + apply IH. intros x Hx. apply Hn. right. exact Hx.
    + apply Forall_forall. intros x Hx. apply in_app_or in Hx.
      destruct Hx as [Hx|[Hx|[]]].
      * rewrite Forall_forall in Hf. apply Hf. exact Hx.
      * subst x. apply Hn. left. reflexivity.
Qed.

Lemma sorted_members (p : client -> bool) r :
  StronglySorted lt (Registry.ids r) -> StronglySorted lt (Registry.ids (filter p r)).
Proof.
  unfold Registry.ids. induction r as [|x r IH]; intros H; [constructor|].
  cbn [map] in H. apply StronglySorted_inv in H. destruct H as [H1 H2].
  cbn [filter]. destruct (p x); [|apply IH; exact H1].
  cbn [map]. constructor; [apply IH; exact H1|].
  apply Forall_forall. intros y Hy. apply in_map_iff in Hy.
  destruct Hy as [z [E Hz]]. apply filter_In in Hz.
  rewrite Forall_forall in H2. apply H2. subst y. apply in_map. tauto.
Qed.

(** Sockets get their identities in the order they are accepted, and
    the set keeps them in that order. *)
Lemma step_sorted e s :
  Inv s -> StronglySorted lt (Registry.ids (clients s)) ->
  StronglySorted lt (Registry.ids (clients (snd (step e s)))).
Proof.
  intros I. step_cases e s;
    cbn [with_reads with_clients with_intervals clients]; intros H; try exact H.
  - rewrite add_fresh.
    + unfold Registry.ids. rewrite map_app. apply sorted_snoc; [exact H|].
      apply (inv_fresh s I).
    + cbn [cid]. intros C. apply (inv_fresh s I) in C. lia.
  - rewrite ids_set_state. exact H.
  - rewrite ids_delete. apply sorted_filter. exact H.
  - rewrite ids_set_link. exact H.
  - rewrite ids_close_all by apply (inv_nodup s I). exact H.
Qed.

Lemma reachable_sorted s :
  reachable s -> StronglySorted lt (Registry.ids (clients s)).
Proof.
  intros [es E]. subst s.
  assert (H : Inv (snd (run es init)) /\
              StronglySorted lt (Registry.ids (clients (snd (run es init))))).
  { apply (run_invariant
             (fun _ s => Inv s /\ StronglySorted lt (Registry.ids (clients s)))).
    - split; [apply Inv_init|constructor].
    - intros t s e [I H]. split; [apply step_Inv; exact I|apply step_sorted; assumption]. }
  apply H.
Qed.

Lemma receivers_fanout r ws m cs : forall k,
  receivers (fanout r ws m cs k) = Registry.ids (open_others ws cs).
Proof.
  unfold receivers. induction cs as [|x cs IH]; intros k; [reflexivity|].
  cbn [fanout]. unfold open_others. cbn [filter].
  destruct (recipient ws x); [|apply IH].
  cbn [sends map fst Registry.ids]. f_equal. apply IH.
Qed.

(** X4. The sends of one inbound message go first to the sender and then
    to the other open connections in the order in which they connected:
    the set is iterated in insertion order, and the identities of its
    members increase with the time of their acceptance. *)
Theorem fanout_in_connection_order s c data P :
  reachable s -> serves s c -> JSON_parse data = Some P ->
  receivers (fst (step (Message c data) s))
  = c :: Registry.ids (open_others c (clients s)) /\
  StronglySorted lt (Registry.ids (open_others c (clients s))) /\
  StronglySorted lt (Registry.ids (clients s)).
Proof.
  intros R Hs HP. pose proof (reachable_sorted s R) as Hso.
  split; [|split; [|exact Hso]].
  - rewrite (step_message_parsed s c data P Hs HP). cbn [fst].
    unfold receivers. cbn [sends map fst]. f_equal.
    apply (receivers_fanout (clients s) c P (clients s)).
  - apply sorted_members. exact Hso.
Qed.

(** X5. Whatever the payload, and whether or not its socket is known,
    handling a message leaves the set of clients with their states, the
    timers, the listener and the shutdown flags as they were; it only
    reads the clock, only logs and sends, and lets no exception out. *)
Theorem message_changes_only_the_clock s c data :
  clients (snd (step (Message c data) s)) = clients s /\
  intervals (snd (step (Message c data) s)) = intervals s /\
  next_conn (snd (step (Message c data) s)) = next_conn s /\
  listening (snd (step (Message c data) s)) = listening s /\
  close_pending (snd (step (Message c data) s)) = close_pending s /\
  exited (snd (step (Message c data) s)) = exited s /\
  date_reads s <= date_reads (snd (step (Message c data) s)) /\
  snd (dispatch (Message c data) s) = inr tt /\
  (forall x, In x (fst (step (Message c data) s)) ->
             match x with Send _ _ _ | Log _ => True | _ => False end).
Proof.
  assert (Hr : snd (dispatch (Message c data) s) = inr tt) by apply dispatch_returns.
  destruct (exited s) eqn:Hx.
  { rewrite (step_exited _ _ Hx). cbn [fst snd].
    repeat match goal with |- _ /\ _ => split end; try reflexivity; try exact Hr; try exact Hx; try lia. intros x []. }
  destruct (Registry.has (clients s) c) eqn:Hh.
  - assert (Hs : serves s c) by (split; assumption).
    destruct (JSON_parse data) as [m|] eqn:HP.
    + rewrite (step_message_parsed s c data m Hs HP).
      cbn [fst snd with_reads clients intervals next_conn listening close_pending
           exited date_reads].
      repeat match goal with |- _ /\ _ => split end; try reflexivity; try exact Hr; try exact Hx; try lia.
      intros x [H|[H|H]]; try (subst x; exact I).
      apply fanout_only_broadcasts in H. destruct H as [y [t [_ E]]]. subst x. exact I.
    + rewrite (step_message_unparsed s c data Hs HP). cbn [fst snd].
      repeat match goal with |- _ /\ _ => split end;
        try reflexivity; try exact Hr; try exact Hx; try lia.
      intros x [H|[H|[H|[]]]]; subst x; exact I.
  - rewrite (step_running _ _ Hx), (dispatch_message_dead c data s Hh). cbn [fst snd].
    repeat match goal with |- _ /\ _ => split end; try reflexivity; try exact Hr; try exact Hx; try lia. intros x [].
Qed.

Lemma close_all_closed cs : forall r,
  (forall x, In x r -> readyState x <> OPEN) -> close_all cs r = r.
Proof.
  induction cs as [|a cs IH]; intros r H; [reflexivity|].
  unfold close_all. cbn [fold_left]. fold (close_all cs (close_one r a)).
  assert (E : close_one r a = r).
  { unfold close_one. destruct (Registry.get r (cid a)) as [y|] eqn:Hg; [|reflexivity].
    apply get_Some in Hg. destruct Hg as [Hy _].
    destruct (ready_state_eqb (readyState y) OPEN) eqn:Ho; [|reflexivity].
    apply ready_state_eqb_eq in Ho. exfalso. exact (H y Hy Ho). }
  rewrite E. apply IH. exact H.
Qed.

Lemma step_SIGINT_again s :
  Inv s -> exited s = false -> close_pending s = true ->
  step SIGINT s
  = (Log shutdown_banner :: map (fun x => Close (cid x)) (clients s) ++ [ServerClose], s).
Proof.
  intros I Hx Hp. rewrite (step_running _ _ Hx), dispatch_sigint. cbn [fst snd].
  destruct (inv_shutdown s I Hp) as [Hl Hno].
  rewrite (close_all_closed (clients s) (clients s) Hno).
  destruct s as [cs ts n k l p x]. cbn in Hl, Hp. subst l p. reflexivity.
Qed.

(** X6. A repeated interrupt signal does not force the exit.  After the
    first [SIGINT], any number of further ones call [close()] and
    [wss.close] again but leave the state of the process exactly as it
    was and never exit: the process still ends only through the callback
    of [wss.close]. *)
Theorem repeated_SIGINT_changes_nothing s n :
  reachable s -> exited s = false ->
  snd (run (repeat SIGINT n) (snd (step SIGINT s))) = snd (step SIGINT s) /\
  (forall x, In x (fst (run (repeat SIGINT n) (snd (step SIGINT s)))) ->
             is_exit x = false).
Proof.
  intros R Hx.
  assert (I1 : Inv (snd (step SIGINT s))) by (apply step_Inv, reachable_Inv; exact R).
  assert (Hx1 : exited (snd (step SIGINT s)) = false).
  { rewrite (step_running _ _ Hx), dispatch_sigint. exact Hx. }
  assert (Hp1 : close_pending (snd (step SIGINT s)) = true).
  { rewrite (step_running _ _ Hx), dispatch_sigint. reflexivity. }
  revert I1 Hx1 Hp1. generalize (snd (step SIGINT s)). intros s1 I1 Hx1 Hp1.
  induction n as [|n IH]; [split; [reflexivity|intros x []]|].
  cbn [repeat]. rewrite run_cons, (step_SIGINT_again s1 I1 Hx1 Hp1). cbn [fst snd].
  destruct IH as [IH1 IH2]. split; [exact IH1|].
  intros x Hin. apply in_app_or in Hin. destruct Hin as [Hin|Hin]; [|apply IH2; exact Hin].
  apply In_sigint_log in Hin. destruct Hin as [E|[[y [_ E]]|E]]; subst x; reflexivity.
Qed.

Lemma step_exited_after e s :
  exited (snd (step e s)) = true ->
  exited s = true \/ (e = ServerClosed /\ close_pending s = true).
Proof.
  step_cases e s;
    cbn [with_reads with_clients with_intervals exited]; intros H;
    try (left; reflexivity); try (left; exact H); try congruence.
  right. split; reflexivity.
Qed.

Lemma step_close_pending_after e s :
  close_pending (snd (step e s)) = true ->
  close_pending s = true \/ In ServerClose (fst (step e s)).
Proof.
  step_cases e s;
    cbn [with_reads with_clients with_intervals close_pending]; intros H;
    try (left; exact H); try (left; reflexivity); try congruence.
  right. right. apply in_or_app. right. left. reflexivity.
Qed.

(** What a run has logged of the shutdown, by the state it ends in. *)
Lemma run_exit_shape es :
  let t := fst (run es init) in
  let s := snd (run es init) in
  (close_pending s = true -> In ServerClose t) /\
  (exited s = false -> forall x, In x t -> is_exit x = false) /\
  (exited s = true ->
   exists t0, t = t0 ++ [Log "Server closed"; Exit 0] /\
              (forall x, In x t0 -> is_exit x = false) /\
              In ServerClose t0).
Proof.
  cbv zeta.
  apply (run_invariant
           (fun t s =>
              (close_pending s = true -> In ServerClose t) /\
              (exited s = false -> forall x, In x t -> is_exit x = false) /\
              (exited s = true ->
               exists t0, t = t0 ++ [Log "Server closed"; Exit 0] /\
                          (forall x, In x t0 -> is_exit x = false) /\
                          In ServerClose t0))).
  - split; [discriminate|]. split; [intros _ x []|discriminate].
  - intros t s e [P1 [P2 P3]].
    destruct (exited s) eqn:Hx.
    { rewrite (step_exited e s Hx). cbn [fst snd]. rewrite app_nil_r, Hx.
      split; [exact P1|]. split; [exact P2|exact P3]. }
    split; [|split].
    + intros Hp. apply in_or_app.
      destruct (step_close_pending_after e s Hp) as [H|H]; [left; auto|right; exact H].
    + intros Hx' x Hin. apply in_app_or in Hin.
      destruct Hin as [Hin|Hin]; [apply P2; [reflexivity|exact Hin]|].
      destruct x as [| | | | | |code]; try reflexivity.
      exfalso. apply step_exit in Hin. destruct Hin as [E [_ [Hp _]]]. subst e.
      rewrite (step_server_closed s Hx Hp) in Hx'. discriminate Hx'.
    + intros Hx'. destruct (step_exited_after e s Hx') as [C|[E Hp]]; [congruence|].
      subst e. rewrite (step_server_closed s Hx Hp). cbn [fst]. exists t.
      split; [reflexivity|]. split; [apply P2; reflexivity|apply P1; exact Hp].
Qed.

(** X7. The exit ends the run.  While the process has not exited, no
    exit is in its log.  Once it has, the log ends with "Server closed"
    and the exit with code 0; that exit is the only one, [wss.close] was
    called before it, and whatever is delivered afterwards is handled by
    nobody: the log stays as it is.  So every connection that is still
    in [wss.clients] at the exit has never run its cleanup and keeps its
    interval to the end. *)
Theorem exit_ends_the_run es :
  (exited (snd (run es init)) = false ->
   forall x, In x (trace es) -> is_exit x = false) /\
  (exited (snd (run es init)) = true ->
   (exists t0, trace es = t0 ++ [Log "Server closed"; Exit 0] /\
               (forall x, In x t0 -> is_exit x = false) /\
               In ServerClose t0) /\
   (forall es', trace (es ++ es') = trace es) /\
   (forall c, In c (Registry.ids (clients (snd (run es init)))) ->
              cleanups_of c (trace es) = 0 /\
              In c (map fst (intervals (snd (run es init)))))).
Proof.
  destruct (run_exit_shape es) as [_ [H2 H3]].
  split; [exact H2|]. intros Hx. split; [exact (H3 Hx)|]. split.
  - intros es'. unfold trace. rewrite run_app, (run_exited es' _ Hx). cbn [fst].
    apply app_nil_r.
  - intros c Hin. split.
    + unfold trace. rewrite cleanups_exact.
      apply has_In in Hin. rewrite Hin. cbn [negb]. rewrite andb_false_r. reflexivity.
    + assert (I : Inv (snd (run es init))) by (apply run_Inv, Inv_init).
      rewrite (inv_timers _ I). exact Hin.
Qed.


Lemma step_welcome e s c x :
  In x (fst (step e s)) -> is_welcome_to c x = true ->
  (exists a, e = Connection a) /\ c = next_conn s.
Proof.
  step_cases e s; intros H Hq;
    try (destruct H as [H|[H|H]]; try (subst x; discriminate Hq); try contradiction; fail);
    try contradiction.
  - destruct H as [H|[H|[]]]; [subst x; discriminate Hq|]. subst x.
    cbn [is_welcome_to] in Hq. apply andb_true_iff in Hq. destruct Hq as [Hq _].
    apply Nat.eqb_eq in Hq. split; [exists a; reflexivity|congruence].
  - destruct H as [H|[H|H]]; [subst x; discriminate Hq| |].
    + subst x. cbn [is_welcome_to is_welcome] in Hq. rewrite andb_false_r in Hq.
      discriminate Hq.
    + apply fanout_only_broadcasts in H. destruct H as [y [t [_ E]]]. subst x.
      cbn [is_welcome_to is_welcome] in Hq. rewrite andb_false_r in Hq. discriminate Hq.
  - destruct H as [H|[H|[H|[]]]]; subst x; try discriminate Hq.
    cbn [is_welcome_to is_welcome] in Hq. rewrite andb_false_r in Hq. discriminate Hq.
  - destruct H as [H|[]]. subst x. discriminate Hq.
  - destruct H as [H|[]]. subst x. discriminate Hq.
  - apply In_tick_effects in H. destruct H as [o [rem [y [E _]]]]. subst x.
    discriminate Hq.
  - destruct H as [H|[]]. subst x. discriminate Hq.
  - apply In_sigint_log in H. destruct H as [H|[[y [_ H]]|H]]; subst x; discriminate Hq.
Qed.

Lemma welcomes_to_app c l1 l2 :
  welcomes_to c (l1 ++ l2) = welcomes_to c l1 + welcomes_to c l2.
Proof. unfold welcomes_to. rewrite filter_app, length_app. reflexivity. Qed.

Lemma welcomes_to_none c l :
  (forall x, In x l -> is_welcome_to c x = false) -> welcomes_to c l = 0.
Proof.
  unfold welcomes_to. induction l as [|x l IH]; intros H; [reflexivity|].
  cbn [filter]. rewrite (H x (or_introl eq_refl)). apply IH.
  intros y Hy. apply H. right. exact Hy.
Qed.

(** X13. Every connection gets the welcome exactly once: over a whole
    run the number of welcomes handed to a socket is one if the socket
    has been accepted and none otherwise, whatever else happened to it
    since. *)
Theorem exactly_one_welcome_per_connection es c :
  welcomes_to c (trace es)
  = if (c <? next_conn (snd (run es init)))%nat then 1 else 0.
Proof.
  unfold trace.
  apply (run_invariant
           (fun t s => welcomes_to c t = if (c <? next_conn s)%nat then 1 else 0)).
  - reflexivity.
  - intros t s e IH. rewrite welcomes_to_app, IH.
    assert (H0 : (forall a, e <> Connection a) \/ c <> next_conn s ->
                 welcomes_to c (fst (step e s)) = 0).
    { intros Hne. apply welcomes_to_none. intros x Hx.
      destruct (is_welcome_to c x) eqn:Hq; [|reflexivity].
      destruct (step_welcome e s c x Hx Hq) as [[a E] E']. exfalso.
      destruct Hne as [Hne|Hne]; [exact (Hne a E)|exact (Hne E')]. }
    revert H0. step_cases e s; intros H0;
      cbn [with_reads with_clients with_intervals next_conn];
      try (rewrite H0 by (left; intros ?; discriminate); apply Nat.add_0_r);
      try (cbn; apply Nat.add_0_r).
    destruct (Nat.eq_dec c (next_conn s)) as [E|E].
    + subst c. rewrite Nat.ltb_irrefl.
      assert (Hlt : (next_conn s <? S (next_conn s))%nat = true) by (apply Nat.ltb_lt; lia).
      rewrite Hlt. unfold welcomes_to. cbn [filter is_welcome_to is_welcome].
      rewrite Nat.eqb_refl. reflexivity.
    + rewrite H0 by (right; exact E). rewrite Nat.add_0_r.
      destruct (Nat.ltb_spec c (next_conn s)), (Nat.ltb_spec c (S (next_conn s)));
        try reflexivity; lia.
Qed.

(** Where a notification that carries a payload, or the error, comes
    from. *)
Lemma step_notification_origin e s to n d :
  In (Send to n d) (fst (step e s)) ->
  match n with
  | Welcome _ _ => True
  | Echo m _ => exists data, e = Message to data /\ JSON_parse data = Some m
  | Broadcast m _ =>
      exists c data, e = Message c data /\ JSON_parse data = Some m /\ c <> to
  | Error msg =>
      exists data, e = Message to data /\ JSON_parse data = None /\
                   msg = "Invalid JSON format"
  end.
Proof.
  step_cases e s; intros H;
    try (destruct H as [H|[H|H]]; try discriminate H; try contradiction; fail);
    try contradiction.
  - destruct H as [H|[H|[]]]; [discriminate|]. inversion H; subst. exact I.
  - destruct H as [H|[H|H]]; [discriminate| |].
    + inversion H; subst. exists data. split; [reflexivity|exact HP].
    + apply fanout_only_broadcasts in H. destruct H as [y [t [Hy E]]].
      inversion E; subst. exists c0, data. split; [reflexivity|]. split; [exact HP|].
      apply In_open_others in Hy. intros C. apply (proj1 (proj2 Hy)). congruence.
  - destruct H as [H|[H|[H|[]]]]; try discriminate. inversion H; subst.
    exists data. split; [reflexivity|]. split; [exact HP|reflexivity].
  - destruct H as [H|[]]. discriminate.
  - destruct H as [H|[]]. discriminate.
  - apply In_tick_effects in H. destruct H as [o [rem [y [E _]]]]. discriminate.
  - destruct H as [H|[]]. discriminate.
  - apply In_sigint_log in H. destruct H as [H|[[y [_ H]]|H]]; discriminate.
Qed.

(** X14. The server relays and invents nothing.  In every run, an echo
    handed to a connection carries the parsed payload of a message that
    came from that connection; a broadcast carries the parsed payload of
    a message that came from another connection; and an error is handed
    only to the connection that sent a message that does not parse, with
    the fixed text. *)
Theorem relayed_payloads_come_from_messages es : forall s to n d,
  In (Send to n d) (fst (run es s)) ->
  match n with
  | Welcome _ _ => True
  | Echo m _ => exists data, In (Message to data) es /\ JSON_parse data = Some m
  | Broadcast m _ =>
      exists c data, In (Message c data) es /\ JSON_parse data = Some m /\ c <> to
  | Error msg =>
      exists data, In (Message to data) es /\ JSON_parse data = None /\
                   msg = "Invalid JSON format"
  end.
Proof.
  induction es as [|e es IH]; intros s to n d H; [destruct H|].
  rewrite run_cons in H. cbn [fst] in H. apply in_app_or in H. destruct H as [H|H].
  - apply step_notification_origin in H. destruct n as [w t|m t|m t|msg].
    + exact I.
    + destruct H as [data [E HP]]. exists data. split; [left; exact E|exact HP].
    + destruct H as [c [data [E HP]]]. exists c, data. split; [left; exact E|exact HP].
    + destruct H as [data [E HP]]. exists data. split; [left; exact E|exact HP].
  - apply IH in H. destruct n as [w t|m t|m t|msg].
    + exact I.
    + destruct H as [data [E HP]]. exists data. split; [right; exact E|exact HP].
    + destruct H as [c [data [E HP]]]. exists c, data. split; [right; exact E|exact HP].
    + destruct H as [data [E HP]]. exists data. split; [right; exact E|exact HP].
Qed.


End Relay.

(** ** The theorems on a sample run

    Three clients connect; client 0 sends payloads. *)

Lemma echo_once_broadcast_to_each_other_witness :
  let s := snd (run sample_parse sample_clock
                    [Connection "a"; Connection "b"; Connection "c"] init) in
  let l := fst (step sample_parse sample_clock (Message 0 "{}") s) in
  count_sends is_echo l = 1 /\
  count_sends is_broadcast l = 2 /\
  (exists t, notifs_to 0 l = [Echo "{}" t]) /\
  (exists t, notifs_to 2 l = [Broadcast "{}" t]).
Proof.
  intros s l.
  destruct (echo_once_broadcast_to_each_other sample_parse sample_clock
              s 0 "{}" "{}") as [He [Hc [Hb [_ [Ho _]]]]].
  - exists [Connection "a"; Connection "b"; Connection "c"]. reflexivity.
  - split; reflexivity.
  - reflexivity.
  - split; [exact Hc|]. split; [exact Hb|]. split; [exact He|].
    apply Ho. simpl. right. left. reflexivity.
Defined.

Lemma unparseable_payload_one_error_witness :
  let s := snd (run sample_parse sample_clock
                    [Connection "a"; Connection "b"; Connection "c"] init) in
  sends (fst (step sample_parse sample_clock (Message 0 "not-json") s))
  = [(0, Error "Invalid JSON format")] /\
  snd (step sample_parse sample_clock (Message 0 "not-json") s) = s.
Proof.
  intros s.
  destruct (unparseable_payload_one_error sample_parse sample_clock
              s 0 "not-json") as [H1 [_ [_ [H4 _]]]].
  - split; reflexivity.
  - reflexivity.
  - split; [exact H1|exact H4].
Defined.

Lemma echo_first_and_arrival_order_witness :
  let s := snd (run sample_parse sample_clock
                    [Connection "a"; Connection "b"; Connection "c"] init) in
  precedes (is_echo_to 0) is_broadcast_send
           (fst (step sample_parse sample_clock (Message 0 "{}") s)) /\
  map reply_of
      (notifs_to 0 (fst (run sample_parse sample_clock
                             (map (Message 0) ["{}"; "not-json"; "x"]) s)))
  = [Some "{}"; None; Some "x"].
Proof.
  intros s.
  destruct (echo_first_and_arrival_order sample_parse sample_clock s 0)
    as [H1 [_ H3]].
  - split; reflexivity.
  - split.
    + exact (proj1 (H1 "{}" "{}" eq_refl)).
    + exact (H3 ["{}"; "not-json"; "x"]).
Defined.

Lemma broadcast_failure_is_isolated_witness :
  let s := snd (run sample_parse sample_clock
                    [Connection "a"; Connection "b"; Connection "c"; LinkDown 1] init) in
  let l := fst (step sample_parse sample_clock (Message 0 "{}") s) in
  received_by 1 l = [] /\
  (exists t, received_by 2 l = [Broadcast "{}" t]) /\
  count_sends is_error l = 0.
Proof.
  intros s l.
  destruct (broadcast_failure_is_isolated sample_parse sample_clock
              s 0 "{}" "{}" 1) as [H1 [H2 [_ [H4 _]]]].
  - exists [Connection "a"; Connection "b"; Connection "c"; LinkDown 1]. reflexivity.
  - split; reflexivity.
  - reflexivity.
  - simpl. left. reflexivity.
  - reflexivity.
  - split; [exact H1|]. split; [|exact H4].
    destruct (H2 2) as [t [_ Ht]].
    + simpl. right. left. reflexivity.
    + exists t. apply Ht. reflexivity.
Defined.

Lemma timestamps_read_per_notification_witness :
  let s := snd (run sample_parse sample_clock
                    [Connection "a"; Connection "b"; Connection "c"] init) in
  let l := fst (step sample_parse sample_clock (Message 0 "{}") s) in
  timestamps (sends l) = [3; 4; 5] /\ NoDup (timestamps (sends l)).
Proof.
  intros s l.
  destruct (timestamps_read_per_notification sample_parse sample_clock
              s 0 "{}" "{}") as [H1 [_ H3]].
  - split; reflexivity.
  - reflexivity.
  - split; [exact H1|]. apply H3. intros i j H. exact H.
Defined.

Lemma welcome_precedes_every_other_notification_witness :
  precedes (is_welcome_to 1) (is_other_notif_to 1)
           (trace sample_parse sample_clock
                  [Connection "a"; Connection "b"; Message 0 "{}"; Message 1 "not-json"]) /\
  exists d,
    fst (step sample_parse sample_clock (Connection "a") init)
    = [Log "New client connected from: a";
       Send 0 (Welcome "Connected to WebSocket server" 0) d].
Proof.
  split.
  - exact (proj1 (welcome_precedes_every_other_notification
                    sample_parse sample_clock
                    [Connection "a"; Connection "b"; Message 0 "{}"; Message 1 "not-json"]
                    1)).
  - destruct (proj2 (welcome_precedes_every_other_notification
                       sample_parse sample_clock [] 0)
                    "a" eq_refl eq_refl) as [d [H _]].
    exists d. exact H.
Defined.

Lemma ping_timer_period_guard_and_single_cleanup_witness :
  let s1 := snd (step sample_parse sample_clock (Connection "a") init) in
  N.of_nat (pings_to 0 (fst (run sample_parse sample_clock
              (repeat Tick (N.to_nat 30000) ++ [Message 0 "[1]"; LinkDown 0]) s1)))
  = 1%N /\
  pings_to 0 (fst (run sample_parse sample_clock [Tick; SocketClose 0; Tick]
                       (snd (step sample_parse sample_clock (SocketClose 0) s1)))) = 0 /\
  cleanups_of 0 (trace sample_parse sample_clock
                       [Connection "a"; SocketError 0; SocketClose 0; SocketClose 0]) = 1 /\
  cleanups_of 0 (fst (run sample_parse sample_clock
                          [SIGINT; ServerClosed; SocketClose 0] s1)) = 0.
Proof.
  intros s1.
  destruct (ping_timer_period_guard_and_single_cleanup sample_parse sample_clock)
    as [_ [H2 [_ [H4 [_ [_ [_ [_ [H9 H10]]]]]]]]].
  split; [|split; [|split]].
  - transitivity
      (N.div (ticks (repeat Tick (N.to_nat 30000) ++ [Message 0 "[1]"; LinkDown 0]))
             PING_INTERVAL_MS).
    + apply (H2 init "a").
      * exists []. reflexivity.
      * reflexivity.
      * reflexivity.
      * vm_compute. reflexivity.
    + vm_compute. reflexivity.
  - destruct (H4 s1 0 [Tick; SocketClose 0; Tick]) as [_ [_ [_ [H _]]]].
    + exists [Connection "a"]. reflexivity.
    + split; reflexivity.
    + exact H.
  - apply H9. exists [Connection "a"; SocketError 0], [SocketClose 0].
    split; [reflexivity|split; reflexivity].
  - destruct (H10 s1 0 [SocketClose 0]) as [_ [H _]].
    + exists [Connection "a"]. reflexivity.
    + split; reflexivity.
    + exact H.
Defined.

Lemma shutdown_closes_all_then_listener_then_exits_witness :
  let s := snd (run sample_parse sample_clock [Connection "a"] init) in
  fst (step sample_parse sample_clock SIGINT s)
  = [Log shutdown_banner; Close 0; ServerClose] /\
  fst (step sample_parse sample_clock ServerClosed
            (snd (step sample_parse sample_clock SIGINT s)))
  = [Log "Server closed"; Exit 0] /\
  ~ precedes (is_cleanup_of 0) is_exit
             (fst (run sample_parse sample_clock
                       [SIGINT; ServerClosed; SocketClose 0] s)).
Proof.
  intros s.
  destruct (shutdown_closes_all_then_listener_then_exits
              sample_parse sample_clock s) as [H1 [_ [_ [_ [_ [_ [_ [H8 [_ H10]]]]]]]]].
  - exists [Connection "a"]. reflexivity.
  - reflexivity.
  - split; [exact H1|]. split.
    + exact (f_equal fst (H8 [] eq_refl)).
    + apply H10. left. reflexivity.
Defined.

Lemma echo_is_sent_on_a_closing_socket_witness :
  let s := snd (run sample_parse sample_clock [Connection "a"; SIGINT] init) in
  readyState_of s 0 = CLOSING /\
  fst (step sample_parse sample_clock (Message 0 "{}") s)
  = [Log "Received: {}"; Send 0 (Echo "{}" 1) Failed].
Proof.
  intros s.
  destruct (echo_is_sent_on_a_closing_socket sample_parse sample_clock
              "a" "{}" "{}") as [_ [H2 H3]].
  - reflexivity.
  - split; [exact H2|exact H3].
Defined.

(** ** Sample runs *)

(** Two clients; the first sends a payload: welcome to each, then the
    echo to the sender and the broadcast to the other. *)
Example run_two_clients_one_message :
  trace sample_parse sample_clock
        [Connection "c1"; Connection "c2"; Message 0 "[1]"]
  = [Log "New client connected from: c1";
     Send 0 (Welcome "Connected to WebSocket server" 0) Delivered;
     Log "New client connected from: c2";
     Send 1 (Welcome "Connected to WebSocket server" 1) Delivered;
     Log "Received: [1]";
     Send 0 (Echo "[1]" 2) Delivered;
     Send 1 (Broadcast "[1]" 3) Delivered].
Proof. reflexivity. Qed.

(** A payload that does not parse: the error goes to the sender alone. *)
Example run_malformed_payload :
  fst (step sample_parse sample_clock (Message 0 "not-json")
            (snd (run sample_parse sample_clock
                      [Connection "c1"; Connection "c2"] init)))
  = [Log "Received: not-json";
     Log "Error parsing message:";
     Send 0 (Error "Invalid JSON format") Delivered].
Proof. reflexivity. Qed.

(** One client alone: the echo, and no broadcast. *)
Example run_single_client :
  fst (step sample_parse sample_clock (Message 0 "[2]")
            (snd (run sample_parse sample_clock [Connection "c1"] init)))
  = [Log "Received: [2]"; Send 0 (Echo "[2]" 1) Delivered].
Proof. reflexivity. Qed.

(** The first ping comes 30000 ms after the connection, not 1 ms before;
    the second after 60000 ms. *)
Example run_ping_every_30_seconds :
  pings_to 0 (trace sample_parse sample_clock
                    (Connection "c1" :: repeat Tick (N.to_nat 29999))) = 0 /\
  pings_to 0 (trace sample_parse sample_clock
                    (Connection "c1" :: repeat Tick (N.to_nat 30000))) = 1 /\
  pings_to 0 (trace sample_parse sample_clock
                    (Connection "c1" :: repeat Tick (N.to_nat 60000))) = 2.
Proof. vm_compute. repeat split. Qed.

(** The broadcast loop passes over a recipient whose transport is down
    and goes on to the next. *)
Example run_recipient_down :
  fst (step sample_parse sample_clock (Message 0 "[1]")
            (snd (run sample_parse sample_clock
                      [Connection "c1"; Connection "c2"; Connection "c3"; LinkDown 1]
                      init)))
  = [Log "Received: [1]";
     Send 0 (Echo "[1]" 3) Delivered;
     Send 1 (Broadcast "[1]" 4) Failed;
     Send 2 (Broadcast "[1]" 5) Delivered].
Proof. reflexivity. Qed.

(** Shutdown with one client: the ['close'] of the listener is handled
    first, the process exits, and the ['close'] of the socket is handled
    by nobody. *)
Example run_shutdown_one_client :
  trace sample_parse sample_clock
        [Connection "a"; SIGINT; ServerClosed; SocketClose 0]
  = [Log "New client connected from: a";
     Send 0 (Welcome "Connected to WebSocket server" 0) Delivered;
     Log shutdown_banner; Close 0; ServerClose;
     Log "Server closed"; Exit 0].
Proof. reflexivity. Qed.

(** Shutdown with two clients: [close()] is called on both and the
    listener is closed.  The first socket has its ['close'] handled; the
    ['close'] of the listener is handled before that of the second, and
    the process exits with the second still in the set: its cleanup does
    not run. *)
Example run_shutdown :
  fst (run sample_parse sample_clock
           [SIGINT; SocketClose 0; ServerClosed; SocketClose 1]
           (snd (run sample_parse sample_clock
                     [Connection "c1"; Connection "c2"] init)))
  = [Log shutdown_banner; Close 0; Close 1; ServerClose;
     Log "Client disconnected"; ClearInterval 0;
     Log "Server closed"; Exit 0].
Proof. reflexivity. Qed.

(** ** Properties of the client *)

Section ClientProperties.

Context {json : Type} (JSON_parse : string -> option json).
Context {timestamp : Type} (clock : nat -> timestamp).

Abbreviation cstep := (client_step JSON_parse clock).
Abbreviation crun := (client_run JSON_parse clock).

Lemma client_run_cons e es s :
  crun (e :: es) s
  = (fst (cstep e s) ++ fst (crun es (snd (cstep e s))),
     snd (crun es (snd (cstep e s)))).
Proof.
  cbn [client_run]. destruct (cstep e s) as [l1 s1]. cbn [fst snd].
  destruct (crun es s1); reflexivity.
Qed.

Lemma client_run_app es1 : forall es2 s,
  crun (es1 ++ es2) s
  = (fst (crun es1 s) ++ fst (crun es2 (snd (crun es1 s))),
     snd (crun es2 (snd (crun es1 s)))).
Proof.
  induction es1 as [|e es1 IH]; intros es2 s.
  - cbn. destruct (crun es2 s); reflexivity.
  - cbn [app]. rewrite !client_run_cons, IH. cbn [fst snd].
    rewrite app_assoc. reflexivity.
Qed.

Lemma client_run_invariant (P : list (@client_effect json timestamp) -> client_process -> Prop) s0 :
  P [] s0 ->
  (forall t s e, P t s -> P (t ++ fst (cstep e s)) (snd (cstep e s))) ->
  forall es, P (fst (crun es s0)) (snd (crun es s0)).
Proof.
  intros H0 Hstep es. induction es as [|e es IH] using rev_ind; [exact H0|].
  rewrite client_run_app. cbn [fst snd]. rewrite client_run_cons. cbn [client_run fst snd].
  rewrite app_nil_r. apply Hstep. exact IH.
Qed.

Lemma client_run_exited es : forall s,
  has_exited s = true -> crun es s = ([], s).
Proof.
  induction es as [|e es IH]; intros s H; [reflexivity|].
  rewrite client_run_cons. unfold client_step. rewrite H. cbn [fst snd].
  rewrite (IH s H). reflexivity.
Qed.

(** Unfolding of one step of the client, by cases on the event and on
    what the handlers test. *)
Ltac client_cases e s :=
  let st := fresh "st" in
  let n := fresh "n" in
  let iv := fresh "iv" in
  let k := fresh "k" in
  let x := fresh "x" in
  let r := fresh "r" in
  destruct s as [st n iv k x];
  unfold client_step, client_on_open, client_on_message, client_on_error,
    client_on_close, client_on_tick, client_on_SIGINT, messageInterval_callback,
    client_close, with_readyState;
  cbn [ws_readyState messageCount messageInterval clock_reads has_exited];
  destruct x; [| destruct e; destruct st; destruct iv as [r|] ];
  cbn [ready_state_eqb orb ws_readyState messageCount messageInterval
       clock_reads has_exited];
  try match goal with
      | |- context [(?q <=? 1)%N] => destruct (q <=? 1)%N eqn:?
      end;
  try match goal with
      | |- context [JSON_parse ?d] => destruct (JSON_parse d)
      end;
  cbn [fst snd ws_readyState messageCount messageInterval clock_reads has_exited
       ready_state_eqb].

Lemma updates_sent_app (l1 l2 : list (@client_effect json timestamp)) :
  updates_sent (l1 ++ l2) = updates_sent l1 ++ updates_sent l2.
Proof.
  induction l1 as [|x l1 IH]; [reflexivity|].
  destruct x as [[m c|m t]| | | | |]; cbn [app updates_sent]; rewrite ?IH; reflexivity.
Qed.

(** What one step does to the counter and to the updates sent. *)
Lemma client_step_count e s :
  (ws_readyState (snd (cstep e s)) = CONNECTING ->
   ws_readyState s = CONNECTING /\ messageCount (snd (cstep e s)) = messageCount s) /\
  ((updates_sent (fst (cstep e s)) = [] /\
    (messageCount (snd (cstep e s)) = messageCount s \/
     (ws_readyState s = CONNECTING /\ messageCount (snd (cstep e s)) = 0)))
   \/ (updates_sent (fst (cstep e s))
       = [String.append "Message #" (decimal (S (messageCount s)))] /\
       messageCount (snd (cstep e s)) = S (messageCount s))).
Proof.
  client_cases e s; cbn [updates_sent];
    (split; [try discriminate; auto|auto]).
Qed.

Lemma client_numbering es :
  updates_sent (fst (crun es client_init))
  = map (fun k => String.append "Message #" (decimal k))
        (seq 1 (messageCount (snd (crun es client_init)))) /\
  (ws_readyState (snd (crun es client_init)) = CONNECTING ->
   messageCount (snd (crun es client_init)) = 0).
Proof.
  apply (client_run_invariant
           (fun t s =>
              updates_sent t
              = map (fun k => String.append "Message #" (decimal k))
                    (seq 1 (messageCount s)) /\
              (ws_readyState s = CONNECTING -> messageCount s = 0))).
  - split; reflexivity.
  - intros t s e [IH1 IH2]. destruct (client_step_count e s) as [Hc Hs].
    split.
    + rewrite updates_sent_app, IH1.
      destruct Hs as [[Hu [Hm|[Hst Hm]]]|[Hu Hm]]; rewrite Hu, Hm.
      * apply app_nil_r.
      * rewrite (IH2 Hst). reflexivity.
      * rewrite seq_S, map_app. reflexivity.
    + intros H. destruct (Hc H) as [H1 H2]. rewrite H2. apply IH2. exact H1.
Qed.

(** X8. The updates the client sends are numbered 1, 2, 3, ... in the
    order they are sent, without gap or repetition, and [messageCount] is
    the number of the last: a firing of the timer that finds the socket
    not [OPEN] sends nothing and uses no number. *)
Theorem client_updates_are_numbered_in_order es :
  updates_sent (client_trace JSON_parse clock es)
  = map (fun k => String.append "Message #" (decimal k))
        (seq 1 (messageCount (snd (crun es client_init)))).
Proof. apply client_numbering. Qed.

(** An interval with [r] ms to go, on a socket that stays open. *)
Lemma client_timer_step e s r :
  has_exited s = false -> ws_readyState s = OPEN -> messageInterval s = Some r ->
  client_closes e = false ->
  has_exited (snd (cstep e s)) = false /\
  ws_readyState (snd (cstep e s)) = OPEN /\
  messageInterval (snd (cstep e s))
  = Some (match e with
          | ClientTick => if (r <=? 1)%N then MESSAGE_INTERVAL_MS else (r - 1)%N
          | _ => r
          end) /\
  messageCount (snd (cstep e s))
  = messageCount s + match e with
                     | ClientTick => if (r <=? 1)%N then 1 else 0
                     | _ => 0
                     end.
Proof.
  intros Hx Ho Hi Hc. revert Hx Ho Hi Hc.
  client_cases e s; intros Hx Ho Hi Hc; try discriminate;
    inversion Hi; subst;
    repeat match goal with
           | H : (_ <=? 1)%N = _ |- _ => rewrite H
           end;
    repeat split; try reflexivity; lia.
Qed.

Lemma client_updates_run es : forall s r,
  has_exited s = false -> ws_readyState s = OPEN -> messageInterval s = Some r ->
  (1 <= r <= MESSAGE_INTERVAL_MS)%N ->
  forallb (fun e => negb (client_closes e)) es = true ->
  N.of_nat (messageCount (snd (crun es s)))
  = (N.of_nat (messageCount s)
     + (client_ticks es + (MESSAGE_INTERVAL_MS - r)) / MESSAGE_INTERVAL_MS)%N.
Proof.
  induction es as [|e es IH]; intros s r Hx Ho Hi Hr Hq.
  - cbn [client_run snd client_ticks].
    rewrite N.div_small; [lia|]. unfold MESSAGE_INTERVAL_MS in *. lia.
  - cbn [forallb] in Hq. apply andb_true_iff in Hq. destruct Hq as [Hq1 Hq2].
    apply negb_true_iff in Hq1.
    destruct (client_timer_step e s r Hx Ho Hi Hq1) as [Hx' [Ho' [Hi' Hm]]].
    rewrite client_run_cons. cbn [snd].
    rewrite (IH _ _ Hx' Ho' Hi'); [| |exact Hq2].
    + rewrite Hm, Nat2N.inj_add. unfold MESSAGE_INTERVAL_MS in *.
      destruct e; cbn [client_ticks]; rewrite ?Nat.add_0_r; try lia.
      destruct (N.leb_spec r 1) as [Hle|Hgt].
      * replace (1 + client_ticks es + (5000 - r))%N
          with (client_ticks es + 1 * 5000)%N by lia.
        rewrite N.div_add by lia.
        replace (client_ticks es + (5000 - 5000))%N with (client_ticks es) by lia.
        cbn [N.of_nat]. lia.
      * replace (1 + client_ticks es + (5000 - r))%N
          with (client_ticks es + (5000 - (r - 1)))%N by lia.
        cbn [N.of_nat]. lia.
    + unfold MESSAGE_INTERVAL_MS in *.
      destruct e; try exact Hr. destruct (N.leb_spec r 1); lia.
Qed.

(** X9. Once the socket has opened, and for as long as nothing closes
    it, the client has sent one update for every full period of 5000 ms
    that has passed: the first 5000 ms after the ['open'], none before.
    Messages from the server that arrive in between change nothing of
    it. *)
Theorem client_sends_an_update_every_period es :
  forallb (fun e => negb (client_closes e)) es = true ->
  N.of_nat (List.length (updates_sent (client_trace JSON_parse clock (ClientOpen :: es))))
  = (client_ticks es / MESSAGE_INTERVAL_MS)%N.
Proof.
  intros Hq. unfold client_trace.
  rewrite (proj1 (client_numbering (ClientOpen :: es))), length_map, length_seq.
  rewrite client_run_cons. cbn [snd].
  rewrite (client_updates_run es (snd (cstep ClientOpen client_init)) MESSAGE_INTERVAL_MS);
    try reflexivity; try exact Hq.
  - cbn [client_step client_init has_exited ws_readyState ready_state_eqb
         client_on_open with_readyState snd messageCount N.of_nat].
    rewrite N.sub_diag, N.add_0_r. reflexivity.
  - unfold MESSAGE_INTERVAL_MS. lia.
Qed.

Lemma client_step_send e s m :
  In (ClientSend m) (fst (cstep e s)) ->
  (e = ClientOpen /\ ws_readyState s = CONNECTING) \/
  (e = ClientTick /\ ws_readyState s = OPEN).
Proof.
  client_cases e s; intros H;
    repeat (destruct H as [H|H]; try discriminate H); try contradiction; auto.
Qed.

Lemma client_step_closing e s :
  ws_readyState s = CLOSING \/ ws_readyState s = CLOSED ->
  ws_readyState (snd (cstep e s)) = CLOSING \/ ws_readyState (snd (cstep e s)) = CLOSED.
Proof.
  client_cases e s; intros [H|H]; try discriminate; auto.
Qed.

(** X10. The client sends only while its socket is [OPEN]: the greeting
    in the ['open'] handler and the updates from the timer.  Once the
    socket is [CLOSING] or [CLOSED] nothing is ever sent again, whatever
    happens afterwards.  A message from the server is answered by nothing:
    it is logged, as a value when it parses and as text when it does not,
    and the state of the client is as before. *)
Theorem client_sends_only_while_open :
  (forall s e m, In (ClientSend m) (fst (cstep e s)) ->
     (e = ClientOpen /\ ws_readyState s = CONNECTING) \/
     (e = ClientTick /\ ws_readyState s = OPEN)) /\
  (forall es s x,
     ws_readyState s = CLOSING \/ ws_readyState s = CLOSED ->
     In x (fst (crun es s)) -> is_client_send x = false) /\
  (forall s data,
     snd (cstep (ClientMessage data) s) = s /\
     List.length (fst (cstep (ClientMessage data) s)) <= 1 /\
     forall x, In x (fst (cstep (ClientMessage data) s)) -> is_client_send x = false).
Proof.
  split; [intros s e m; apply client_step_send|]. split.
  - induction es as [|e es IH]; intros s x Hc Hin; [destruct Hin|].
    rewrite client_run_cons in Hin. cbn [fst] in Hin.
    apply in_app_or in Hin. destruct Hin as [Hin|Hin].
    + destruct x as [m| | | | |]; try reflexivity.
      apply client_step_send in Hin.
      destruct Hin as [[_ H]|[_ H]]; destruct Hc as [Hc|Hc]; congruence.
    + apply (IH (snd (cstep e s))); [apply client_step_closing; exact Hc|exact Hin].
  - intros s data. split; [|split].
    + unfold client_step, client_on_message.
      destruct (has_exited s); [reflexivity|].
      destruct (ready_state_eqb (ws_readyState s) OPEN
                || ready_state_eqb (ws_readyState s) CLOSING); [|reflexivity].
      destruct (JSON_parse data); reflexivity.
    + unfold client_step, client_on_message.
      destruct (has_exited s); [cbn; lia|].
      destruct (ready_state_eqb (ws_readyState s) OPEN
                || ready_state_eqb (ws_readyState s) CLOSING); [|cbn; lia].
      destruct (JSON_parse data); cbn; lia.
    + intros x Hin. destruct x as [m| | | | |]; try reflexivity.
      apply client_step_send in Hin. destruct Hin as [[H _]|[H _]]; discriminate H.
Qed.

Lemma client_step_no_SIGINT e s :
  has_exited s = false -> is_ClientSIGINT e = false ->
  has_exited (snd (cstep e s)) = false /\
  (forall x, In x (fst (cstep e s)) -> is_client_shutdown x = false).
Proof.
  intros Hx He. revert Hx He.
  client_cases e s; intros Hx He; try discriminate; split; try reflexivity;
    intros y Hy; repeat (destruct Hy as [Hy|Hy]; try (subst y; reflexivity));
    contradiction.
Qed.

Lemma client_run_no_SIGINT es : forall s,
  has_exited s = false ->
  forallb (fun e => negb (is_ClientSIGINT e)) es = true ->
  has_exited (snd (crun es s)) = false /\
  (forall x, In x (fst (crun es s)) -> is_client_shutdown x = false).
Proof.
  induction es as [|e es IH]; intros s Hx Hq.
  - split; [exact Hx|intros x []].
  - cbn [forallb] in Hq. apply andb_true_iff in Hq. destruct Hq as [Hq1 Hq2].
    apply negb_true_iff in Hq1.
    destruct (client_step_no_SIGINT e s Hx Hq1) as [Hx' Hn].
    rewrite client_run_cons. cbn [fst snd].
    destruct (IH _ Hx' Hq2) as [H1 H2]. split; [exact H1|].
    intros x Hin. apply in_app_or in Hin. destruct Hin as [Hin|Hin]; auto.
Qed.

(** X11. The client ends its process on the interrupt signal and on
    nothing else.  Without [SIGINT] it never calls [close()] and never
    exits.  The first [SIGINT] ends the log with the banner, [close()]
    and [exit(0)], in whatever state the socket is, also before it has
    opened; nothing that arrives later has any effect: the ['close']
    handlers do not run and the interval is never cleared. *)
Theorem client_exits_on_SIGINT_only es1 es2 :
  forallb (fun e => negb (is_ClientSIGINT e)) es1 = true ->
  has_exited (snd (crun es1 client_init)) = false /\
  (forall x, In x (client_trace JSON_parse clock es1) -> is_client_shutdown x = false) /\
  client_trace JSON_parse clock (es1 ++ ClientSIGINT :: es2)
  = client_trace JSON_parse clock es1
    ++ [ClientLog closing_banner; ClientClose; ClientExit 0] /\
  has_exited (snd (crun (es1 ++ ClientSIGINT :: es2) client_init)) = true.
Proof.
  intros Hq. destruct (client_run_no_SIGINT es1 client_init eq_refl Hq) as [Hx Hn].
  split; [exact Hx|]. split; [exact Hn|].
  unfold client_trace. rewrite client_run_app, client_run_cons. cbn [fst snd].
  assert (E : cstep ClientSIGINT (snd (crun es1 client_init))
              = client_on_SIGINT (snd (crun es1 client_init))).
  { unfold client_step. rewrite Hx. reflexivity. }
  rewrite E.
  rewrite (client_run_exited es2 (snd (client_on_SIGINT (snd (crun es1 client_init)))))
    by reflexivity.
  unfold client_on_SIGINT. cbn [fst snd has_exited].
  split; [rewrite app_nil_r|]; reflexivity.
Qed.

Lemma client_step_timer e s :
  (messageInterval s <> None -> ws_readyState s = OPEN \/ ws_readyState s = CLOSING) ->
  (messageInterval (snd (cstep e s)) <> None ->
   ws_readyState (snd (cstep e s)) = OPEN \/ ws_readyState (snd (cstep e s)) = CLOSING) /\
  (List.length (filter is_client_cleanup (fst (cstep e s))) = 0 \/
   (List.length (filter is_client_cleanup (fst (cstep e s))) = 1 /\
    messageInterval s <> None /\ messageInterval (snd (cstep e s)) = None)).
Proof.
  client_cases e s; intros H; cbn [filter is_client_cleanup List.length];
    try (split; [intros; auto; try congruence|auto]);
    try (right; repeat split; congruence);
    try (exfalso; assert (C : Some r <> None) by discriminate;
         destruct (H C) as [E|E]; discriminate E).
Qed.

(** X12. The timer of the client lives with its socket: in every run
    the interval is live only while the socket is [OPEN] or [CLOSING]
    after an ['open'], a closed socket has no interval left, and the
    interval is cleared at most once. *)
Theorem client_timer_lives_with_the_socket es :
  (messageInterval (snd (crun es client_init)) <> None ->
   ws_readyState (snd (crun es client_init)) = OPEN \/
   ws_readyState (snd (crun es client_init)) = CLOSING) /\
  (ws_readyState (snd (crun es client_init)) = CLOSED ->
   messageInterval (snd (crun es client_init)) = None) /\
  List.length (filter is_client_cleanup (client_trace JSON_parse clock es)) <= 1.
Proof.
  unfold client_trace.
  assert (H : (messageInterval (snd (crun es client_init)) <> None ->
               ws_readyState (snd (crun es client_init)) = OPEN \/
               ws_readyState (snd (crun es client_init)) = CLOSING) /\
              (List.length (filter is_client_cleanup (fst (crun es client_init))) = 0 \/
               (List.length (filter is_client_cleanup (fst (crun es client_init))) = 1 /\
                ws_readyState (snd (crun es client_init)) <> OPEN /\
                messageInterval (snd (crun es client_init)) = None /\
                ws_readyState (snd (crun es client_init)) <> CONNECTING))).
  { apply (client_run_invariant
             (fun t s =>
                (messageInterval s <> None ->
                 ws_readyState s = OPEN \/ ws_readyState s = CLOSING) /\
                (List.length (filter is_client_cleanup t) = 0 \/
                 (List.length (filter is_client_cleanup t) = 1 /\
                  ws_readyState s <> OPEN /\ messageInterval s = None /\
                  ws_readyState s <> CONNECTING)))).
    - split; [intros C; exfalso; apply C; reflexivity|left; reflexivity].
    - intros t s e [I1 I2]. destruct (client_step_timer e s I1) as [S1 S2].
      split; [exact S1|]. rewrite filter_app, length_app.
      destruct I2 as [I2|[I2 [I3 [I4 I5]]]].
      + destruct S2 as [S2|[S2 [S3 S4]]]; rewrite I2, S2; [left; reflexivity|].
        right. split; [reflexivity|]. split; [|split; [exact S4|]].
        * intros C. revert S3 S4 C. clear. client_cases e s; intros; try congruence.
        * intros C. revert S3 S4 C I1. clear. client_cases e s; intros S3 S4 C I1;
            try congruence;
            try (destruct (I1 S3) as [E|E]; discriminate E).
      + destruct S2 as [S2|[S2 [S3 S4]]]; [|congruence].
        rewrite I2, S2. right. split; [reflexivity|].
        revert I3 I4 I5. clear. client_cases e s; intros I3 I4 I5;
          repeat split; try congruence; try discriminate. }
  destruct H as [H1 H2]. split; [exact H1|]. split.
  - intros C. destruct (messageInterval (snd (crun es client_init))) as [r|] eqn:E;
      [|reflexivity].
    destruct H1 as [H1|H1]; [discriminate|congruence|congruence].
  - destruct H2 as [H2|[H2 _]]; rewrite H2; lia.
Qed.

End ClientProperties.

(** ** The further properties on sample runs *)

Lemma one_interval_per_member_witness :
  map fst (intervals (snd (run sample_parse sample_clock
                               [Connection "a"; Connection "b"; SocketClose 0; Tick] init)))
  = [1].
Proof.
  destruct (one_interval_per_member sample_parse sample_clock
              (snd (run sample_parse sample_clock
                        [Connection "a"; Connection "b"; SocketClose 0; Tick] init)))
    as [H _].
  - exists [Connection "a"; Connection "b"; SocketClose 0; Tick]. reflexivity.
  - exact H.
Defined.

Lemma no_shutdown_without_SIGINT_witness :
  exited (snd (run sample_parse sample_clock
                   [Connection "a"; Message 0 "not-json"; SocketError 0; ServerError;
                    ServerClosed; SocketClose 0; Pong 0; Tick] init)) = false /\
  listening (snd (run sample_parse sample_clock
                      [Connection "a"; Message 0 "not-json"; SocketError 0; ServerError;
                       ServerClosed; SocketClose 0; Pong 0; Tick] init)) = true.
Proof.
  destruct (no_shutdown_without_SIGINT sample_parse sample_clock
              [Connection "a"; Message 0 "not-json"; SocketError 0; ServerError;
               ServerClosed; SocketClose 0; Pong 0; Tick]) as [H1 [H2 _]].
  - reflexivity.
  - split; [exact H1|exact H2].
Defined.

Lemma fanout_in_connection_order_witness :
  receivers (fst (step sample_parse sample_clock (Message 2 "[1]")
                       (snd (run sample_parse sample_clock
                                 [Connection "a"; Connection "b"; Connection "c";
                                  Connection "d"; SocketClose 1] init))))
  = [2; 0; 3].
Proof.
  destruct (fanout_in_connection_order sample_parse sample_clock
              (snd (run sample_parse sample_clock
                        [Connection "a"; Connection "b"; Connection "c";
                         Connection "d"; SocketClose 1] init))
              2 "[1]" "[1]") as [H _].
  - exists [Connection "a"; Connection "b"; Connection "c"; Connection "d"; SocketClose 1].
    reflexivity.
  - split; reflexivity.
  - reflexivity.
  - exact H.
Defined.

Lemma message_changes_only_the_clock_witness :
  clients (snd (step sample_parse sample_clock (Message 0 "[1]")
                     (snd (run sample_parse sample_clock
                               [Connection "a"; Connection "b"] init))))
  = clients (snd (run sample_parse sample_clock [Connection "a"; Connection "b"] init)).
Proof.
  exact (proj1 (message_changes_only_the_clock sample_parse sample_clock
                  (snd (run sample_parse sample_clock
                            [Connection "a"; Connection "b"] init)) 0 "[1]")).
Defined.

Lemma repeated_SIGINT_changes_nothing_witness :
  snd (run sample_parse sample_clock (repeat SIGINT 3)
           (snd (step sample_parse sample_clock SIGINT
                      (snd (run sample_parse sample_clock
                                [Connection "a"; Connection "b"] init)))))
  = snd (step sample_parse sample_clock SIGINT
              (snd (run sample_parse sample_clock [Connection "a"; Connection "b"] init))).
Proof.
  destruct (repeated_SIGINT_changes_nothing sample_parse sample_clock
              (snd (run sample_parse sample_clock [Connection "a"; Connection "b"] init))
              3) as [H _].
  - exists [Connection "a"; Connection "b"]. reflexivity.
  - reflexivity.
  - exact H.
Defined.

Lemma exit_ends_the_run_witness :
  let es := [Connection "a"; Connection "b"; SIGINT; SocketClose 0; ServerClosed] in
  trace sample_parse sample_clock (es ++ [SocketClose 1; Tick; Message 1 "[1]"])
  = trace sample_parse sample_clock es /\
  cleanups_of 1 (trace sample_parse sample_clock es) = 0.
Proof.
  intros es.
  destruct (exit_ends_the_run sample_parse sample_clock es) as [_ H].
  destruct (H eq_refl) as [_ [H2 H3]].
  split; [apply H2|].
  destruct (H3 1) as [H0 _]; [simpl; left; reflexivity|exact H0].
Defined.

Lemma client_sends_an_update_every_period_witness :
  N.of_nat (List.length (updates_sent (client_trace sample_parse sample_clock
              (ClientOpen :: repeat ClientTick (N.to_nat 10000) ++ [ClientMessage "[1]"]))))
  = 2%N.
Proof.
  transitivity
    (N.div (client_ticks (repeat ClientTick (N.to_nat 10000) ++ [ClientMessage "[1]"]))
           MESSAGE_INTERVAL_MS).
  - apply (client_sends_an_update_every_period sample_parse sample_clock).
    vm_compute. reflexivity.
  - vm_compute. reflexivity.
Defined.

Lemma client_sends_only_while_open_witness :
  Forall (fun x => is_client_send x = false)
         (fst (client_run sample_parse sample_clock
                          (repeat ClientTick 3 ++ [ClientMessage "[1]"; ClientClosed])
                          (snd (client_run sample_parse sample_clock
                                           [ClientOpen; ClientError "reset"] client_init)))) /\
  snd (client_step sample_parse sample_clock (ClientMessage "not-json")
                   (snd (client_run sample_parse sample_clock [ClientOpen] client_init)))
  = snd (client_run sample_parse sample_clock [ClientOpen] client_init).
Proof.
  split.
  - apply Forall_forall. intros x.
    apply (proj1 (proj2 (client_sends_only_while_open sample_parse sample_clock))).
    left. reflexivity.
  - apply (proj2 (proj2 (client_sends_only_while_open sample_parse sample_clock))).
Defined.

Lemma client_exits_on_SIGINT_only_witness :
  client_trace sample_parse sample_clock
               ([ClientOpen; ClientMessage "[1]"] ++ ClientSIGINT :: [ClientClosed; ClientTick])
  = client_trace sample_parse sample_clock [ClientOpen; ClientMessage "[1]"]
    ++ [ClientLog closing_banner; ClientClose; ClientExit 0].
Proof.
  destruct (client_exits_on_SIGINT_only sample_parse sample_clock
              [ClientOpen; ClientMessage "[1]"] [ClientClosed; ClientTick])
    as [_ [_ [H _]]].
  - reflexivity.
  - exact H.
Defined.

Lemma client_timer_lives_with_the_socket_witness :
  messageInterval (snd (client_run sample_parse sample_clock
                                   [ClientOpen; ClientTick; ClientClosed; ClientTick]
                                   client_init)) = None.
Proof.
  apply (proj1 (proj2 (client_timer_lives_with_the_socket sample_parse sample_clock
                         [ClientOpen; ClientTick; ClientClosed; ClientTick]))).
  reflexivity.
Defined.

Lemma relayed_payloads_come_from_messages_witness :
  exists c data,
    In (Message c data) [Connection "a"; Connection "b"; Message 0 "[1]"] /\
    sample_parse data = Some "[1]" /\ c <> 1.
Proof.
  apply (relayed_payloads_come_from_messages sample_parse sample_clock
           [Connection "a"; Connection "b"; Message 0 "[1]"] init
           1 (Broadcast "[1]" 3) Delivered).
  simpl. right. right. right. right. right. right. left. reflexivity.
Defined.

(** ** Sample runs of the client *)

(** The greeting at the ['open'], an update 5000 ms later, the echo of
    the server logged as a value; after the ['close'] the timer is gone
    and nothing more is sent. *)
Example run_client_session :
  client_trace sample_parse sample_clock
    (ClientOpen :: repeat ClientTick 5000
       ++ [ClientMessage "[1]"; ClientMessage "not-json"; ClientClosed]
       ++ repeat ClientTick 5000)
  = [ClientLog "Connected to WebSocket server";
     ClientSend (greeting "Hello from Node.js client" 0);
     ClientSend (update "Message #1" 1);
     ClientLog "Sent message #1";
     ClientLogValue "Received from server:" "[1]";
     ClientLog "Received (raw): not-json";
     ClientLog "Disconnected from WebSocket server";
     ClientClearInterval].
Proof. vm_compute. reflexivity. Qed.

(** The interrupt signal before the socket has opened. *)
Example run_client_interrupted_early :
  client_trace sample_parse sample_clock [ClientSIGINT; ClientOpen; ClientClosed]
  = [ClientLog closing_banner; ClientClose; ClientExit 0].
Proof. reflexivity. Qed.

(** A connection that fails: the error, then the ['close'], and no
    interval to clear. *)
Example run_client_refused :
  client_trace sample_parse sample_clock [ClientError "ECONNREFUSED"; ClientClosed; ClientOpen]
  = [ClientLog "WebSocket error: ECONNREFUSED";
     ClientLog "Disconnected from WebSocket server"].
Proof. reflexivity. Qed.
